(** * Vertex AI model enumerator: a shallow embedding of [enumerate.py]

    The script lists the publisher models of the master catalogue
    (us-central1) and keeps those a target region confirms with one
    [get_publisher_model] call per model, issued from a thread pool.

    Python values are embedded as follows.
    - [str] is [string]; [Optional[str]] is [option string]; truthiness of
      such a value is [truthy].
    - A call either returns or raises: [outcome A].  The exception classes
      that matter are the constructors of [exception]; [isinstance_Exception]
      tells the classes deriving from [Exception] from those deriving from
      [BaseException] only, since [except Exception] tells them apart.
    - [os.environ] is a [gmap string string]; the dictionary
      [future_to_model] is a [gmap nat PublisherModel] keyed by the rank of
      the future's submission, futures being distinct objects.
    - The remote service is an oracle [Network]: a function, so the same
      call gets the same answer.  The calls the process puts on the wire,
      its standard error and its standard output are lists in [world],
      threaded through the monad [M].
    - The command line is what [argparse] makes of it: [command_line].
    - The thread pool is a transition system on [pool]; the moves of its
      workers and of the main thread are the list [sched] of the world, and
      every statement below holds for every such list.

    What is taken for granted: building a [ModelGardenServiceClient]
    succeeds (the credentials are in place); [ThreadPoolExecutor] has at
    most [max_workers] workers, each of which takes a work item off the
    queue, runs it and sets its future, and every submitted item is run
    before the [with] block is left; [as_completed] yields each future
    once, those already set when it is called in the order of a set, which
    is any order, and the others as they are set; [argparse] prints its help
    on standard output and exits with status 0 when asked for help, and
    prints its complaint on standard error and exits with status 2 when it
    rejects the command line. *)

From stdpp Require Import base numbers list gmap strings pretty.

Open Scope string_scope.
Open Scope list_scope.
Open Scope nat_scope.

(** ** Exceptions and outcomes *)

Inductive exception : Type :=
| NotFound (message : string)            (* google.api_core.exceptions, 404 *)
| PermissionDenied (message : string)    (* 403 *)
| InternalServerError (message : string) (* 500 *)
| DeadlineExceeded (message : string)    (* 504, the call timed out *)
| DecodeError (message : string)         (* the response could not be parsed *)
| ValueError (message : string)
| KeyError (key_repr : string)           (* carries repr(key) *)
| KeyboardInterrupt
| SystemExit (code : Z).

(** [isinstance(e, Exception)]: [KeyboardInterrupt] and [SystemExit] derive
    from [BaseException] directly. *)
Definition isinstance_Exception (e : exception) : bool :=
  match e with
  | KeyboardInterrupt | SystemExit _ => false
  | _ => true
  end.

(** [isinstance(e, exceptions.NotFound)]. *)
Definition isinstance_NotFound (e : exception) : bool :=
  match e with
  | NotFound _ => true
  | _ => false
  end.

(** [str(e)], as it is interpolated in a log message: the status code and
    the message for the errors of the API, the message alone for
    [ValueError] and [DecodeError], and [repr(key)] for a [KeyError]. *)
Definition str_exception (e : exception) : string :=
  match e with
  | NotFound m => "404 " +:+ m
  | PermissionDenied m => "403 " +:+ m
  | InternalServerError m => "500 " +:+ m
  | DeadlineExceeded m => "504 " +:+ m
  | DecodeError m | ValueError m => m
  | KeyError key_repr => key_repr
  | KeyboardInterrupt => ""
  | SystemExit c => pretty c
  end.

Inductive outcome (A : Type) : Type :=
| Return (a : A)
| Raise (e : exception).

Arguments Return {A} a.
Arguments Raise {A} e.

(** ** The data model *)

(** A [PublisherModel] message; the script reads [name] only. *)
Record PublisherModel : Type := mkPublisherModel {
  name : string;
  version_id : string
}.

(** A [ModelGardenServiceClient], built from its [client_options]. *)
Record ModelGardenServiceClient : Type := mkClient {
  api_endpoint : string
}.

(** The remote service: what a listing of a publisher's models and a fetch of
    one model answer at a given endpoint.  The listing is the materialised
    [list(response)], so a failure on any page is a failure of the whole. *)
Record Network : Type := mkNetwork {
  rpc_list_publisher_models : string → string → outcome (list PublisherModel);
  rpc_get_publisher_model : string → string → outcome PublisherModel
}.

(** What the process puts on the wire. *)
Inductive net_event : Type :=
| ListRequest (endpoint parent : string)
| GetRequest (endpoint model_name : string)
| GetResponse (endpoint model_name : string).

(** One move of the threads of a run.
    - [WorkerStart]: an idle worker takes the next work item off the queue.
    - [WorkerSend k]: of the workers that hold an item whose call has not
      gone out yet, the [k]-th (modulo their number) puts its request on the
      wire.
    - [WorkerReceive k]: the [k]-th call in flight (modulo their number)
      comes back to its worker.
    - [WorkerFinish k]: of the workers whose call is back, the [k]-th
      (modulo their number) sets its future and is idle again.
    - [AsCompleted order]: the main thread calls [as_completed]; the futures
      set by then are kept in the order of a set, which [order] picks (see
      [shuffle]); the futures set later follow in the order they are set. *)
Inductive decision : Type :=
| WorkerStart
| WorkerSend (k : nat)
| WorkerReceive (k : nat)
| WorkerFinish (k : nat)
| AsCompleted (order : list nat).

Record world : Type := mkWorld {
  environ : gmap string string;
  net : list net_event;
  stderr : list string;
  stdout : list string;
  sched : list decision
}.

(** ** The monad of the main thread *)

Definition M (A : Type) : Type := world → outcome A * world.

#[global] Instance M_ret : MRet M := λ A a w, (Return a, w).

#[global] Instance M_bind : MBind M := λ A B f m w,
  match m w with
  | (Return a, w') => f a w'
  | (Raise e, w') => (Raise e, w')
  end.

#[global] Instance M_throw : MThrow exception M := λ A e w, (Raise e, w).

(** [try: body / except Exception as e: handler e]: an exception that does
    not derive from [Exception] passes through. *)
Definition try_except_Exception {A} (body : M A) (handler : exception → M A) : M A :=
  λ w, match body w with
       | (Return a, w') => (Return a, w')
       | (Raise e, w') =>
           if isinstance_Exception e then handler e w' else (Raise e, w')
       end.

(** [logging.basicConfig(format="%(levelname)s: %(message)s", stream=sys.stderr)]. *)
Definition log_record (levelname message : string) : M unit :=
  λ w, (Return (), mkWorld (environ w) (net w)
                     (stderr w ++ [levelname +:+ ": " +:+ message])
                     (stdout w) (sched w)).

Definition logger_info : string → M unit := log_record "INFO".
Definition logger_warning : string → M unit := log_record "WARNING".
Definition logger_error : string → M unit := log_record "ERROR".

Definition print (line : string) : M unit :=
  λ w, (Return (), mkWorld (environ w) (net w) (stderr w)
                     (stdout w ++ [line]) (sched w)).

Definition sys_exit {A} (code : Z) : M A := mthrow (SystemExit code).

Definition os_getenv (key : string) : M (option string) :=
  λ w, (Return (environ w !! key), w).

(** [load_dotenv()]: the variables of the [.env] file are added to
    [os.environ]; a variable already set keeps its value. *)
Definition load_dotenv (dotenv : gmap string string) : M unit :=
  λ w, (Return (), mkWorld (environ w ∪ dotenv) (net w) (stderr w)
                     (stdout w) (sched w)).

(** Truthiness of an [Optional[str]]: [None] and the empty string are false. *)
Definition truthy (o : option string) : option string :=
  match o with
  | Some s => if bool_decide (s = "") then None else Some s
  | None => None
  end.

(** ** [get_project_id] *)

Definition get_project_id (arg_project : option string) : M string :=
  match truthy arg_project with
  | Some p => mret p
  | None =>
      env_project ← os_getenv "GOOGLE_CLOUD_PROJECT";
      match truthy env_project with
      | Some p => mret p
      | None =>
          logger_error "Could not determine Project ID. Set GOOGLE_CLOUD_PROJECT env var or use --project.";;
          sys_exit 1
      end
  end.

(** A list in the order of a set: the element at position
    [k mod length l] comes first, for the first [k] of [order], then the
    rest likewise; what [order] does not reach keeps its order. *)
Fixpoint shuffle {A} (order : list nat) (l : list A) : list A :=
  match order with
  | [] => l
  | k :: order =>
      match l !! (k mod length l) with
      | Some x => x :: shuffle order (delete (k mod length l) l)
      | None => []
      end
  end.

Section Enumerate.

Variable network : Network.

(** ** The client's two calls *)

(** [client.list_publisher_models(parent=parent)], materialised by [list]:
    one listing call of the main thread. *)
Definition list_publisher_models (client : ModelGardenServiceClient)
    (parent : string) : M (list PublisherModel) :=
  λ w, (rpc_list_publisher_models network (api_endpoint client) parent,
        mkWorld (environ w) (net w ++ [ListRequest (api_endpoint client) parent])
          (stderr w) (stdout w) (sched w)).

(** [client.get_publisher_model(name=model_name)]: what the service answers.
    The call runs on a worker thread; the pool records when it goes on the
    wire and when it comes back. *)
Definition get_publisher_model (client : ModelGardenServiceClient)
    (model_name : string) : outcome PublisherModel :=
  rpc_get_publisher_model network (api_endpoint client) model_name.

(** ** [check_model_availability] *)

Definition check_model_availability (client : ModelGardenServiceClient)
    (model_name : string) : outcome bool :=
  match get_publisher_model client model_name with
  | Return _ => Return true
  | Raise e =>
      if isinstance_NotFound e then Return false
      else if isinstance_Exception e then Return false
      else Raise e
  end.

(** ** The thread pool

    A work item is a future (the rank of its submission) with the model name
    it was submitted with.  [queue] holds the items no worker has taken yet,
    in submission order; [taken] the items a worker holds whose call has not
    gone out yet; [running] the items whose call is on the wire; [returned]
    the items whose call is back, with the result or the exception of
    [check_model_availability], and whose future is not set yet; [finished]
    the futures that are set, in the order they were set; [yielded] is
    [None] until the main thread calls [as_completed], and then the futures
    in the order [as_completed] yields them; [wire] the requests and
    responses so far. *)
Record pool : Type := mkPool {
  queue : list (nat * string);
  taken : list (nat * string);
  running : list (nat * string);
  returned : list (nat * outcome bool);
  finished : list (nat * outcome bool);
  yielded : option (list (nat * outcome bool));
  wire : list net_event
}.

(** A worker takes the head of the queue, if there is one and fewer than
    [max_workers] workers hold an item. *)
Definition worker_start (max_workers : nat) (p : pool) : pool :=
  match queue p with
  | item :: rest =>
      if decide (length (taken p) + length (running p) + length (returned p)
                 < max_workers)
      then mkPool rest (taken p ++ [item]) (running p) (returned p)
             (finished p) (yielded p) (wire p)
      else p
  | [] => p
  end.

(** The worker at position [k mod length taken] calls
    [check_model_availability]: its request goes on the wire. *)
Definition worker_send (client : ModelGardenServiceClient) (k : nat)
    (p : pool) : pool :=
  match taken p !! (k mod length (taken p)) with
  | Some item =>
      mkPool (queue p) (delete (k mod length (taken p)) (taken p))
        (running p ++ [item]) (returned p) (finished p) (yielded p)
        (wire p ++ [GetRequest (api_endpoint client) item.2])
  | None => p
  end.

(** The call in flight at position [k mod length running] comes back, and
    [check_model_availability] returns or raises in its worker. *)
Definition worker_receive (client : ModelGardenServiceClient) (k : nat)
    (p : pool) : pool :=
  match running p !! (k mod length (running p)) with
  | Some item =>
      mkPool (queue p) (taken p) (delete (k mod length (running p)) (running p))
        (returned p ++ [(item.1, check_model_availability client item.2)])
        (finished p) (yielded p)
        (wire p ++ [GetResponse (api_endpoint client) item.2])
  | None => p
  end.

(** The worker at position [k mod length returned] sets its future; once
    [as_completed] has been called, the future is handed to it. *)
Definition worker_finish (k : nat) (p : pool) : pool :=
  match returned p !! (k mod length (returned p)) with
  | Some c =>
      mkPool (queue p) (taken p) (running p)
        (delete (k mod length (returned p)) (returned p))
        (finished p ++ [c]) ((λ ys, ys ++ [c]) <$> yielded p) (wire p)
  | None => p
  end.

(** The main thread calls [as_completed]: the futures finished so far come
    first, in the order of a set. *)
Definition as_completed_call (order : list nat) (p : pool) : pool :=
  match yielded p with
  | None =>
      mkPool (queue p) (taken p) (running p) (returned p) (finished p)
        (Some (shuffle order (finished p))) (wire p)
  | Some _ => p
  end.

Definition pool_step (max_workers : nat) (client : ModelGardenServiceClient)
    (p : pool) (d : decision) : pool :=
  match d with
  | WorkerStart => worker_start max_workers p
  | WorkerSend k => worker_send client k p
  | WorkerReceive k => worker_receive client k p
  | WorkerFinish k => worker_finish k p
  | AsCompleted order => as_completed_call order p
  end.

(** Leaving the [with] block joins the workers ([shutdown(wait=True)]): once
    the given decisions are used up, the pool keeps taking, sending,
    receiving and completing work, one round per submitted item. *)
Definition drain (n : nat) : list decision :=
  concat (replicate n
            [WorkerStart; WorkerSend 0; WorkerReceive 0; WorkerFinish 0]).

(** The decisions, then the drain; if the decisions never had the main
    thread call [as_completed], it does so last, when every future is
    finished. *)
Definition run_pool (max_workers : nat) (client : ModelGardenServiceClient)
    (decisions : list decision) (p : pool) : pool :=
  foldl (pool_step max_workers client) p
    (decisions
     ++ drain (length (queue p) + length (taken p) + length (running p)
               + length (returned p))
     ++ [AsCompleted []]).

(** The futures of the submitted work, run under the decisions of the
    world, in the order [as_completed] yields them.  The pool is run to rest
    before the loop reads the futures: the loop only reads, and the [with]
    block waits for every worker whether the loop ends or raises. *)
Definition executor_run (max_workers : nat) (client : ModelGardenServiceClient)
    (work : list (nat * string)) : M (list (nat * outcome bool)) :=
  λ w, let p := run_pool max_workers client (sched w)
                  (mkPool work [] [] [] [] None []) in
       (Return (default (finished p) (yielded p)),
        mkWorld (environ w) (net w ++ wire p) (stderr w) (stdout w) []).

(** [future_to_model[future]]; the [repr] of a future shows its address, for
    which its rank stands here. *)
Definition dict_getitem (d : gmap nat PublisherModel) (future : nat) : M PublisherModel :=
  match d !! future with
  | Some model => mret model
  | None => mthrow (KeyError ("<Future at " +:+ pretty future +:+ ">"))
  end.

(** [future.result()]: the value of the call, or its exception raised again. *)
Definition future_result (r : outcome bool) : M bool :=
  match r with
  | Return b => mret b
  | Raise e => mthrow e
  end.

(** The body of [for future in as_completed(future_to_model)]. *)
Fixpoint as_completed_loop (future_to_model : gmap nat PublisherModel)
    (total : nat) (completed : list (nat * outcome bool)) (count : nat)
    (available_models : list PublisherModel) : M (list PublisherModel) :=
  match completed with
  | [] => mret available_models
  | (future, r) :: rest =>
      model ← dict_getitem future_to_model future;
      is_available ← future_result r;
      let count := S count in
      (if bool_decide (count mod 20 = 0)
       then logger_info ("Checked " +:+ pretty count +:+ "/" +:+ pretty total +:+ " models...")
       else mret ());;
      as_completed_loop future_to_model total rest count
        (if is_available : bool then available_models ++ [model] else available_models)
  end.

(** Lines 147 to 174: the [with ThreadPoolExecutor(max_workers=...)] block
    and the [return] after it. *)
Definition verify_availability (max_workers : nat)
    (region_client : ModelGardenServiceClient)
    (all_models : list PublisherModel) : M (list PublisherModel) :=
  if decide (max_workers = 0)
  then mthrow (ValueError "max_workers must be greater than 0")
  else
    let future_to_model : gmap nat PublisherModel := map_seq 0 all_models in
    completed ← executor_run max_workers region_client
                  (imap (λ future model, (future, name model)) all_models);
    as_completed_loop future_to_model (length all_models) completed 0 [].

(** ** [fetch_models] *)

(** The endpoint of the master catalogue (line 117). *)
Definition discovery_endpoint : string := "us-central1-aiplatform.googleapis.com".

(** [fetch_models], with the [max_workers] of its thread pool as a parameter;
    the script fixes it to 50, see [fetch_models] below. *)
Definition fetch_models_with (max_workers : nat)
    (project_id region publisher : string) : M (list PublisherModel) :=
  logger_info ("Discovery: Fetching full catalog from " +:+ discovery_endpoint +:+ "...");;
  let discovery_client := mkClient discovery_endpoint in
  let parent := "publishers/" +:+ publisher in
  all_models ←
    try_except_Exception
      (all_models ← list_publisher_models discovery_client parent;
       logger_info ("Discovery: Found " +:+ pretty (length all_models)
                    +:+ " models in Master Catalog.");;
       mret all_models)
      (λ e, logger_error ("Failed to discover models: " +:+ str_exception e);;
            sys_exit 1);
  if bool_decide (region = "us-central1")
  then
    logger_info "Region is us-central1; returning full discovery catalog.";;
    mret all_models
  else
    logger_info ("Filtering: Verifying availability in " +:+ region +:+ " for "
                 +:+ pretty (length all_models) +:+ " models...");;
    let region_client := mkClient (region +:+ "-aiplatform.googleapis.com") in
    verify_availability max_workers region_client all_models.

Definition fetch_models : string → string → string → M (list PublisherModel) :=
  fetch_models_with 50.

(** ** [main] *)

(** The [argparse] namespace; [publisher] comes with its default applied. *)
Record Namespace : Type := mkNamespace {
  project : option string;
  region : option string;
  publisher : string
}.

(** [a or b or c] on optional strings with a string to fall back on. *)
Definition or_else (a b : option string) (c : string) : string :=
  match truthy a with
  | Some s => s
  | None => match truthy b with
            | Some s => s
            | None => c
            end
  end.

Fixpoint print_models (models : list PublisherModel) : M unit :=
  match models with
  | [] => mret ()
  | model :: rest => print ("- " +:+ name model +:+ ":predict");; print_models rest
  end.

(** What [argparse] makes of the command line: the namespace of the three
    options; or, for [-h] and [--help], the help text; or, for a command
    line it rejects, the usage and error message. *)
Inductive command_line : Type :=
| Parsed (args : Namespace)
| HelpRequested (help : list string)
| Rejected (complaint : list string).

(** [parser.parse_args()]: the help text goes to standard output and the
    process exits with status 0; the complaint about a rejected command line
    goes to standard error and the process exits with status 2. *)
Definition parse_args (argv : command_line) : M Namespace :=
  match argv with
  | Parsed args => mret args
  | HelpRequested help =>
      (λ w, (Return (), mkWorld (environ w) (net w) (stderr w)
                          (stdout w ++ help) (sched w)));;
      sys_exit 0
  | Rejected complaint =>
      (λ w, (Return (), mkWorld (environ w) (net w) (stderr w ++ complaint)
                          (stdout w) (sched w)));;
      sys_exit 2
  end.

Definition main (dotenv : gmap string string) (argv : command_line) : M unit :=
  load_dotenv dotenv;;
  args ← parse_args argv;
  project_id ← get_project_id (project args);
  env_region ← os_getenv "REGION";
  let region := or_else (region args) env_region "us-central1" in
  models ← fetch_models project_id region (publisher args);
  match models with
  | _ :: _ =>
      logger_info ("Successfully retrieved " +:+ pretty (length models)
                   +:+ " models available in " +:+ region +:+ ".");;
      print ("# Models available in " +:+ region +:+ " for publisher '"
             +:+ publisher args +:+ "'");;
      print_models models
  | [] => logger_warning ("No models found available in " +:+ region +:+ ".")
  end.

End Enumerate.

(** * [inspect_model.py] *)

Section Inspect.

Variable network : Network.

(** [client.get_publisher_model(name=model_name)] called on the main thread:
    the request and its response follow each other on the wire. *)
Definition call_get_publisher_model (client : ModelGardenServiceClient)
    (model_name : string) : M PublisherModel :=
  λ w, (get_publisher_model network client model_name,
        mkWorld (environ w)
          (net w ++ [GetRequest (api_endpoint client) model_name;
                     GetResponse (api_endpoint client) model_name])
          (stderr w) (stdout w) (sched w)).

(** The body of [for model_name in test_models]. *)
Fixpoint inspect_loop (client : ModelGardenServiceClient) (region : string)
    (test_models : list string) : M unit :=
  match test_models with
  | [] => mret ()
  | model_name :: rest =>
      print ("Checking " +:+ model_name +:+ " in " +:+ region +:+ "...");;
      try_except_Exception
        (model ← call_get_publisher_model client model_name;
         print ("SUCCESS: " +:+ model_name +:+ " is available in " +:+ region))
        (λ e, print ("FAILED: " +:+ model_name
                     +:+ " is NOT available (or API error): " +:+ str_exception e));;
      inspect_loop client region rest
  end.

Definition inspect_model : M unit :=
  let region := "europe-west4" in
  let client := mkClient (region +:+ "-aiplatform.googleapis.com") in
  let test_models := ["publishers/google/models/gemini-1.5-pro-002";
                      "publishers/google/models/bert-base"] in
  inspect_loop client region test_models.

End Inspect.

(** * Vocabulary of the statements *)

(** The client [fetch_models] builds for the target region (lines 143-145). *)
Definition region_client (region : string) : ModelGardenServiceClient :=
  mkClient (region +:+ "-aiplatform.googleapis.com").

(** The number of [get_publisher_model] requests put on the wire in a trace,
    and the number of responses that came back. *)
Fixpoint sent (t : list net_event) : nat :=
  match t with
  | [] => 0
  | GetRequest _ _ :: t => S (sent t)
  | _ :: t => sent t
  end.

Fixpoint received (t : list net_event) : nat :=
  match t with
  | [] => 0
  | GetResponse _ _ :: t => S (received t)
  | _ :: t => received t
  end.

(** A probe fails when its fetch raises, and fails with an error when what
    is raised derives from [Exception]: not found, permission denied, server
    error, deadline exceeded, undecodable response and the like.  The probes
    of a discovery list fail with errors only when each failure is an error. *)
Definition fails_with_errors_only (network : Network)
    (client : ModelGardenServiceClient) (all_models : list PublisherModel) : Prop :=
  ∀ model e,
    model ∈ all_models →
    get_publisher_model network client (name model) = Raise e →
    isinstance_Exception e = true.

(** The fetch of a model came back with the model's details. *)
Definition found (network : Network) (client : ModelGardenServiceClient)
    (model : PublisherModel) : Prop :=
  ∃ details, get_publisher_model network client (name model) = Return details.

(** The probe of a model came back with [True]. *)
Definition confirmed (network : Network) (client : ModelGardenServiceClient)
    (model : PublisherModel) : Prop :=
  check_model_availability network client (name model) = Return true.

#[global] Instance exception_eq_dec : EqDecision exception.
Proof. solve_decision. Defined.

#[global] Instance outcome_eq_dec {A} `{EqDecision A} : EqDecision (outcome A).
Proof. solve_decision. Defined.

#[global] Instance confirmed_dec network client model :
  Decision (confirmed network client model).
Proof. unfold confirmed. apply _. Defined.

#[global] Instance found_dec network client model :
  Decision (found network client model).
Proof.
  unfold found.
  destruct (get_publisher_model network client (name model)) as [details|e].
  - left. by exists details.
  - right. by intros [details ?].
Defined.

(** The work [fetch_models] submits for a discovery list, and the futures of
    that work once every call is back. *)
Definition submitted (all_models : list PublisherModel) : list (nat * string) :=
  imap (λ future model, (future, name model)) all_models.

Definition settle (network : Network) (client : ModelGardenServiceClient)
    (item : nat * string) : nat * outcome bool :=
  (item.1, check_model_availability network client item.2).

Definition settled (network : Network) (client : ModelGardenServiceClient)
    (p : pool) : list (nat * outcome bool) :=
  (settle network client <$> (queue p ++ taken p ++ running p))
  ++ returned p ++ finished p.

(** The futures in the order [as_completed] yields them. *)
Definition completed_futures (p : pool) : list (nat * outcome bool) :=
  default (finished p) (yielded p).

(** What [as_completed] yields is a rearrangement of the finished futures. *)
Definition yielded_inv (p : pool) : Prop :=
  ∀ ys, yielded p = Some ys → ys ≡ₚ finished p.

(** The wire agrees with the pool: at most [max_workers] workers hold an
    item, the requests without a response are the calls in flight, every
    response is with its worker or has set a future, and no moment of the
    trace had more than [max_workers] requests unanswered. *)
Definition wire_inv (max_workers : nat) (p : pool) : Prop :=
  length (taken p) + length (running p) + length (returned p) ≤ max_workers ∧
  sent (wire p) = received (wire p) + length (running p) ∧
  received (wire p) = length (returned p) + length (finished p) ∧
  ∀ t, t `prefix_of` wire p →
       received t ≤ sent t ∧ sent t ≤ received t + max_workers.

(** Work items that have not reached a terminal outcome. *)
Definition remaining (p : pool) : nat :=
  length (queue p) + length (taken p) + length (running p)
  + length (returned p).

(** The first exception among completed futures, in the order given. *)
Fixpoint first_raise (completed : list (nat * outcome bool)) : option exception :=
  match completed with
  | [] => None
  | (_, Raise e) :: _ => Some e
  | (_, Return _) :: rest => first_raise rest
  end.

(** The model a completed future contributes to the result, if any. *)
Definition pick (all_models : list PublisherModel)
    (c : nat * outcome bool) : option PublisherModel :=
  match c.2 with
  | Return true => all_models !! c.1
  | _ => None
  end.

(** Two outcomes of [fetch_models] agree: both are lists with the same
    elements, each as many times, or both are exceptions. *)
Definition same_result (r1 r2 : outcome (list PublisherModel)) : Prop :=
  match r1, r2 with
  | Return l1, Return l2 => l1 ≡ₚ l2
  | Raise _, Raise _ => True
  | _, _ => False
  end.

(** The status with which the interpreter leaves the process for an outcome
    of [main]: 0 on return, the low eight bits of the code of a
    [SystemExit], 130 on an interrupt, 1 on any other exception, which it
    prints with its traceback. *)
Definition exit_status (r : outcome unit) : Z :=
  match r with
  | Return _ => 0
  | Raise (SystemExit code) => code `mod` 256
  | Raise KeyboardInterrupt => 130
  | Raise _ => 1
  end.

(** How many models of a list carry a given identifier. *)
Definition occurrences (model_name : string) (l : list PublisherModel) : nat :=
  length (filter (λ model, name model = model_name) l).

(** What [main] prints for a list of models. *)
Definition rendering (region publisher : string)
    (models : list PublisherModel) : list string :=
  match models with
  | [] => []
  | _ :: _ =>
      ("# Models available in " +:+ region +:+ " for publisher '" +:+ publisher +:+ "'")
      :: ((λ model, "- " +:+ name model +:+ ":predict") <$> models)
  end.

(** The model names of the [get_publisher_model] requests of a trace, in the
    order they were sent; those of the responses, in the order they came
    back; and the listings of a trace, each with its endpoint and parent. *)
Fixpoint requested (t : list net_event) : list string :=
  match t with
  | [] => []
  | GetRequest _ model_name :: t => model_name :: requested t
  | _ :: t => requested t
  end.

Fixpoint responded (t : list net_event) : list string :=
  match t with
  | [] => []
  | GetResponse _ model_name :: t => model_name :: responded t
  | _ :: t => responded t
  end.

Fixpoint listings (t : list net_event) : list (string * string) :=
  match t with
  | [] => []
  | ListRequest endpoint parent :: t => (endpoint, parent) :: listings t
  | _ :: t => listings t
  end.

(** A call of the trace goes where a run for [region] sends it: a listing to
    the master endpoint, a fetch to the endpoint of the region. *)
Definition addressed_to (region : string) (ev : net_event) : Prop :=
  match ev with
  | ListRequest endpoint _ => endpoint = discovery_endpoint
  | GetRequest endpoint _ | GetResponse endpoint _ =>
      endpoint = region +:+ "-aiplatform.googleapis.com"
  end.

(** The progress lines of a run over [total] models: one for every multiple
    of 20 up to [total], in increasing order. *)
Definition progress_line (total count : nat) : string :=
  "INFO: Checked " +:+ pretty count +:+ "/" +:+ pretty total +:+ " models...".

Definition progress_log (total : nat) : list string :=
  progress_line total <$> filter (λ count, count mod 20 = 0) (seq 1 total).

(** The pool keeps the names straight: the requests sent and the items not
    sent yet carry, together, the names of the discovery list, each as many
    times; the responses and the calls in flight are, together, the requests
    sent; at no moment of the trace is there a response without its request
    before it; and every call on the wire is a fetch at the client's
    endpoint. *)
Definition names_inv (client : ModelGardenServiceClient)
    (all_models : list PublisherModel) (p : pool) : Prop :=
  requested (wire p) ++ (taken p).*2 ++ (queue p).*2 ≡ₚ name <$> all_models ∧
  responded (wire p) ++ (running p).*2 ≡ₚ requested (wire p) ∧
  (∀ t, t `prefix_of` wire p → responded t ⊆+ requested t) ∧
  Forall (λ ev, ∃ model_name,
            ev = GetRequest (api_endpoint client) model_name ∨
            ev = GetResponse (api_endpoint client) model_name) (wire p).

(** The two models [inspect_model] checks, and the lines it prints. *)
Definition test_model_1 : string := "publishers/google/models/gemini-1.5-pro-002".
Definition test_model_2 : string := "publishers/google/models/bert-base".

Definition success_line (model_name : string) : string :=
  "SUCCESS: " +:+ model_name +:+ " is available in europe-west4".

(** ** Scenarios *)

Definition model_a : PublisherModel := mkPublisherModel "publishers/google/models/a" "001".
Definition model_b : PublisherModel := mkPublisherModel "publishers/google/models/b" "001".
Definition model_c : PublisherModel := mkPublisherModel "publishers/google/models/c" "001".

(** The master region lists a, b and c; a target region finds a, does not
    find b, and times out on c. *)
Definition scenario_network : Network :=
  mkNetwork
    (λ endpoint parent,
       if bool_decide (endpoint = discovery_endpoint)
       then Return [model_a; model_b; model_c]
       else Raise (NotFound "Not Found"))
    (λ endpoint model_name,
       if bool_decide (model_name = name model_a) then Return model_a
       else if bool_decide (model_name = name model_b)
            then Raise (NotFound "Publisher model not found")
            else Raise (DeadlineExceeded "Deadline Exceeded")).

(** The master region lists fifty models. *)
Definition fifty_models : list PublisherModel :=
  (λ i, mkPublisherModel ("publishers/google/models/m" +:+ pretty i) "001") <$> seq 0 50.

Definition fifty_network : Network :=
  mkNetwork (λ endpoint parent, Return fifty_models)
    (λ endpoint model_name, Raise (NotFound "Publisher model not found")).

(** Every region finds every model. *)
Definition permissive_network : Network :=
  mkNetwork (λ endpoint parent, Return [model_a; model_b; model_c])
    (λ endpoint model_name, Return (mkPublisherModel model_name "001")).

(** The fetch of b raises [SystemExit(2)], which is not an [Exception]. *)
Definition exiting_network : Network :=
  mkNetwork (λ endpoint parent, Return [model_a; model_b; model_c])
    (λ endpoint model_name,
       if bool_decide (model_name = name model_b) then Raise (SystemExit 2)
       else Return (mkPublisherModel model_name "001")).

(** The listing is interrupted from the keyboard. *)
Definition interrupted_network : Network :=
  mkNetwork (λ endpoint parent, Raise KeyboardInterrupt)
    (λ endpoint model_name, Return model_a).

(** The listing itself fails on the transport. *)
Definition broken_network : Network :=
  mkNetwork (λ endpoint parent, Raise (InternalServerError "connection reset"))
    (λ endpoint model_name, Return model_a).

(** A process with an empty environment that has done nothing yet, and the
    decisions its pool will take: here the three calls go out together and
    come back last first. *)
Definition fresh_world (decisions : list decision) : world :=
  mkWorld ∅ [] [] [] decisions.

Definition last_first : list decision :=
  [WorkerStart; WorkerStart; WorkerStart;
   WorkerSend 0; WorkerSend 0; WorkerSend 0;
   WorkerReceive 2; WorkerReceive 1; WorkerReceive 0;
   WorkerFinish 0; WorkerFinish 0; WorkerFinish 0].

(** The three calls go out, come back and set their futures in the order of
    discovery, and [as_completed] yields them in that order. *)
Definition discovery_order : list decision :=
  [WorkerStart; WorkerStart; WorkerStart;
   WorkerSend 0; WorkerSend 0; WorkerSend 0;
   WorkerReceive 0; WorkerReceive 0; WorkerReceive 0;
   WorkerFinish 0; WorkerFinish 0; WorkerFinish 0;
   AsCompleted []].

(** The same, all before the main thread calls [as_completed], whose set
    holds the futures in the order b, c, a. *)
Definition set_order_b_c_a : list decision :=
  [WorkerStart; WorkerStart; WorkerStart;
   WorkerSend 0; WorkerSend 0; WorkerSend 0;
   WorkerReceive 0; WorkerReceive 0; WorkerReceive 0;
   WorkerFinish 0; WorkerFinish 0; WorkerFinish 0;
   AsCompleted [1; 1; 0]].

(** The main thread is in [as_completed] before any call is back; the calls
    come back in the order a, b, c, and the worker of b sets its future
    first, then that of c, then that of a. *)
Definition futures_set_b_c_a : list decision :=
  [AsCompleted [];
   WorkerStart; WorkerStart; WorkerStart;
   WorkerSend 0; WorkerSend 0; WorkerSend 0;
   WorkerReceive 0; WorkerReceive 0; WorkerReceive 0;
   WorkerFinish 1; WorkerFinish 1; WorkerFinish 0].

(** The calls go out in the order c, a, b. *)
Definition sent_c_a_b : list decision :=
  [WorkerStart; WorkerStart; WorkerStart;
   WorkerSend 2; WorkerSend 0; WorkerSend 0].

(** * The thread pool *)

Section PoolFacts.

Context (network : Network) (max_workers : nat) (client : ModelGardenServiceClient).

Lemma sent_app t1 t2 : sent (t1 ++ t2) = sent t1 + sent t2.
Proof. induction t1 as [|[] t1 IH]; simpl; lia. Qed.

Lemma received_app t1 t2 : received (t1 ++ t2) = received t1 + received t2.
Proof. induction t1 as [|[] t1 IH]; simpl; lia. Qed.

Lemma prefix_snoc_cases {A} (t l : list A) (x : A) :
  t `prefix_of` l ++ [x] → t `prefix_of` l ∨ t = l ++ [x].
Proof.
  intros [k Hk]. destruct k as [|y k _] using rev_ind.
  - right. by rewrite app_nil_r in Hk.
  - left. rewrite app_assoc in Hk. apply app_inj_tail in Hk as [-> _].
    by exists k.
Qed.

Lemma foldl_invariant {A B} (I : A → Prop) (f : A → B → A) (l : list B) (a : A) :
  (∀ a b, I a → I (f a b)) → I a → I (foldl f a l).
Proof. intros Hf. revert a. induction l; simpl; auto. Qed.

Lemma shuffle_Permutation {A} (order : list nat) (l : list A) :
  shuffle order l ≡ₚ l.
Proof.
  revert l. induction order as [|k order IH]; intros l; simpl; [done|].
  destruct (l !! (k mod length l)) as [x|] eqn:Hk.
  - by rewrite IH, <-(delete_Permutation l _ _ Hk).
  - destruct l as [|y l]; [done|]. apply lookup_ge_None in Hk.
    pose proof (Nat.mod_upper_bound k (length (y :: l))). simpl in *. lia.
Qed.

(** Every item is, at any time, in exactly one of the five lists. *)
Lemma worker_start_settled p :
  settled network client (worker_start max_workers p)
  ≡ₚ settled network client p.
Proof.
  destruct p as [[|item rest] tk r rt f y t]; unfold worker_start, settled;
    cbn [queue taken running returned finished]; [done|].
  case_decide; cbn [queue taken running returned finished]; [|done].
  apply Permutation_app; [|done].
  apply fmap_Permutation. solve_Permutation.
Qed.

Lemma worker_send_settled k p :
  settled network client (worker_send client k p) ≡ₚ settled network client p.
Proof.
  destruct p as [q tk r rt f y t]; unfold worker_send, settled;
    cbn [queue taken running returned finished].
  destruct (tk !! _) as [item|] eqn:Hk;
    cbn [queue taken running returned finished]; [|done].
  apply Permutation_app; [|done]. apply fmap_Permutation.
  pose proof (delete_Permutation tk _ _ Hk) as Htk.
  set (tk' := delete _ tk) in *. clearbody tk'. rewrite Htk.
  solve_Permutation.
Qed.

Lemma worker_receive_settled k p :
  settled network client (worker_receive network client k p)
  ≡ₚ settled network client p.
Proof.
  destruct p as [q tk r rt f y t]; unfold worker_receive, settled;
    cbn [queue taken running returned finished].
  destruct (r !! _) as [item|] eqn:Hk;
    cbn [queue taken running returned finished]; [|done].
  pose proof (delete_Permutation r _ _ Hk) as Hr.
  set (r' := delete _ r) in *. clearbody r'. clear Hk. rewrite Hr.
  rewrite !fmap_app, fmap_cons.
  change (item.1, check_model_availability network client item.2)
    with (settle network client item).
  solve_Permutation.
Qed.

Lemma worker_finish_settled k p :
  settled network client (worker_finish k p) ≡ₚ settled network client p.
Proof.
  destruct p as [q tk r rt f y t]; unfold worker_finish, settled;
    cbn [queue taken running returned finished].
  destruct (rt !! _) as [c|] eqn:Hk;
    cbn [queue taken running returned finished]; [|done].
  pose proof (delete_Permutation rt _ _ Hk) as Hrt.
  set (rt' := delete _ rt) in *. clearbody rt'. clear Hk. rewrite Hrt.
  solve_Permutation.
Qed.

Lemma as_completed_call_settled order p :
  settled network client (as_completed_call order p) = settled network client p.
Proof. destruct p as [q tk r rt f [ys|] t]; done. Qed.

Lemma pool_step_settled p d :
  settled network client (pool_step network max_workers client p d)
  ≡ₚ settled network client p.
Proof.
  destruct d; simpl.
  - apply worker_start_settled.
  - apply worker_send_settled.
  - apply worker_receive_settled.
  - apply worker_finish_settled.
  - by rewrite as_completed_call_settled.
Qed.

(** What [as_completed] yields stays a rearrangement of the finished
    futures. *)
Lemma pool_step_yielded p d :
  yielded_inv p → yielded_inv (pool_step network max_workers client p d).
Proof.
  destruct p as [q tk r rt f y t], d as [|k|k|k|order]; unfold yielded_inv; simpl.
  - unfold worker_start; simpl. destruct q; [done|]. by case_decide.
  - unfold worker_send; simpl. by destruct (tk !! _).
  - unfold worker_receive; simpl. by destruct (r !! _).
  - unfold worker_finish; simpl. destruct (rt !! _); [|done]. simpl.
    intros Hy ys Hys. destruct y as [ys0|]; simplify_eq/=.
    by rewrite (Hy ys0 eq_refl).
  - unfold as_completed_call; simpl. destruct y as [ys0|]; simpl; [done|].
    intros _ ys [= <-]. apply shuffle_Permutation.
Qed.

Lemma worker_start_wire p :
  wire_inv max_workers p → wire_inv max_workers (worker_start max_workers p).
Proof.
  destruct p as [[|item rest] tk r rt f y t]; unfold worker_start, wire_inv;
    simpl; [done|].
  case_decide; simpl; [|done]. intros (Hr & Hs & Hf & Hp).
  rewrite length_app. simpl. split_and!; [lia|done..].
Qed.

Lemma worker_send_wire k p :
  wire_inv max_workers p → wire_inv max_workers (worker_send client k p).
Proof.
  destruct p as [q tk r rt f y t]; unfold worker_send, wire_inv; simpl.
  destruct (tk !! _) as [item|] eqn:Hk; [|done]. simpl. intros (Hr & Hs & Hf & Hp).
  assert (0 < length tk) by (apply lookup_lt_Some in Hk; lia).
  rewrite length_delete by eauto.
  rewrite length_app, sent_app, received_app. simpl.
  split_and!; [lia..|]. intros t' [Ht'| ->]%prefix_snoc_cases; [by apply Hp|].
  rewrite sent_app, received_app. simpl. lia.
Qed.

Lemma worker_receive_wire k p :
  wire_inv max_workers p →
  wire_inv max_workers (worker_receive network client k p).
Proof.
  destruct p as [q tk r rt f y t]; unfold worker_receive, wire_inv; simpl.
  destruct (r !! _) as [item|] eqn:Hk; [|done]. simpl. intros (Hr & Hs & Hf & Hp).
  assert (0 < length r) by (apply lookup_lt_Some in Hk; lia).
  rewrite length_delete by eauto.
  rewrite length_app, sent_app, received_app. simpl.
  split_and!; [lia..|]. intros t' [Ht'| ->]%prefix_snoc_cases; [by apply Hp|].
  rewrite sent_app, received_app. simpl. lia.
Qed.

Lemma worker_finish_wire k p :
  wire_inv max_workers p → wire_inv max_workers (worker_finish k p).
Proof.
  destruct p as [q tk r rt f y t]; unfold worker_finish, wire_inv; simpl.
  destruct (rt !! _) as [c|] eqn:Hk; [|done]. simpl. intros (Hr & Hs & Hf & Hp).
  assert (0 < length rt) by (apply lookup_lt_Some in Hk; lia).
  rewrite length_delete by eauto. rewrite length_app. simpl.
  split_and!; [lia..|done].
Qed.

Lemma as_completed_call_wire order p :
  wire_inv max_workers p → wire_inv max_workers (as_completed_call order p).
Proof. destruct p as [q tk r rt f [ys|] t]; done. Qed.

Lemma pool_step_wire p d :
  wire_inv max_workers p →
  wire_inv max_workers (pool_step network max_workers client p d).
Proof.
  destruct d; simpl.
  - apply worker_start_wire.
  - apply worker_send_wire.
  - apply worker_receive_wire.
  - apply worker_finish_wire.
  - apply as_completed_call_wire.
Qed.

(** No move adds work, and a round of the drain retires one item. *)
Lemma pool_step_remaining p d :
  remaining (pool_step network max_workers client p d) ≤ remaining p.
Proof.
  destruct p as [q tk r rt f y t], d as [|k|k|k|order]; unfold remaining; simpl.
  - unfold worker_start; simpl. destruct q as [|item rest]; [done|].
    case_decide; simpl; [|done]. rewrite length_app. simpl. lia.
  - unfold worker_send; simpl. destruct (tk !! _) eqn:Hk; [|done]. simpl.
    rewrite length_delete by eauto. rewrite length_app. simpl.
    apply lookup_lt_Some in Hk. lia.
  - unfold worker_receive; simpl. destruct (r !! _) eqn:Hk; [|done]. simpl.
    rewrite length_delete by eauto. rewrite length_app. simpl.
    apply lookup_lt_Some in Hk. lia.
  - unfold worker_finish; simpl. destruct (rt !! _) eqn:Hk; [|done]. simpl.
    rewrite length_delete by eauto. lia.
  - unfold as_completed_call; simpl. by destruct y.
Qed.

Lemma worker_send_0 p item rest :
  taken p = item :: rest →
  worker_send client 0 p =
  mkPool (queue p) rest (running p ++ [item]) (returned p) (finished p)
    (yielded p) (wire p ++ [GetRequest (api_endpoint client) item.2]).
Proof.
  intros Htk. unfold worker_send. rewrite Htk. cbn [length].
  by rewrite Nat.Div0.mod_0_l.
Qed.

Lemma worker_receive_0 p item rest :
  running p = item :: rest →
  worker_receive network client 0 p =
  mkPool (queue p) (taken p) rest
    (returned p ++ [(item.1, check_model_availability network client item.2)])
    (finished p) (yielded p)
    (wire p ++ [GetResponse (api_endpoint client) item.2]).
Proof.
  intros Hr. unfold worker_receive. rewrite Hr. cbn [length].
  by rewrite Nat.Div0.mod_0_l.
Qed.

Lemma worker_finish_0 p c rest :
  returned p = c :: rest →
  remaining (worker_finish 0 p) = pred (remaining p).
Proof.
  intros Hr. unfold worker_finish, remaining. rewrite Hr. cbn [length].
  rewrite Nat.Div0.mod_0_l. simpl. lia.
Qed.

Lemma drain_round_remaining p :
  0 < max_workers →
  remaining (worker_finish 0
               (worker_receive network client 0
                  (worker_send client 0 (worker_start max_workers p))))
  ≤ pred (remaining p).
Proof.
  intros Hw.
  pose proof (pool_step_remaining p WorkerStart) as H1. simpl in H1.
  set (p1 := worker_start max_workers p) in *.
  pose proof (pool_step_remaining p1 (WorkerSend 0)) as H2. simpl in H2.
  set (p2 := worker_send client 0 p1) in *.
  pose proof (pool_step_remaining p2 (WorkerReceive 0)) as H3. simpl in H3.
  set (p3 := worker_receive network client 0 p2) in *.
  pose proof (pool_step_remaining p3 (WorkerFinish 0)) as H4. simpl in H4.
  destruct (returned p3) as [|c rest] eqn:Hrt3.
  - (* no call is back after the round's receive: nothing was left at all *)
    assert (running p2 = [] ∧ returned p2 = []) as [Hr2 Hrt2].
    { destruct (running p2) as [|x r2] eqn:Hr2.
      - subst p3. unfold worker_receive in Hrt3. by rewrite Hr2 in Hrt3.
      - subst p3. rewrite (worker_receive_0 p2 x r2 Hr2) in Hrt3.
        simpl in Hrt3. by destruct (returned p2). }
    assert (taken p1 = [] ∧ running p1 = [] ∧ returned p1 = [])
      as (Htk1 & Hr1 & Hrt1).
    { destruct (taken p1) as [|x tk1] eqn:Htk1.
      - subst p2. unfold worker_send in Hr2, Hrt2.
        by rewrite Htk1 in Hr2, Hrt2.
      - subst p2. rewrite (worker_send_0 p1 x tk1 Htk1) in Hr2. simpl in Hr2.
        by destruct (running p1). }
    assert (remaining p = 0); [|lia].
    subst p1. unfold worker_start in Htk1, Hr1, Hrt1. unfold remaining.
    destruct p as [[|x q] tk r rt f y t]; simpl in *.
    + by rewrite Htk1, Hr1, Hrt1.
    + case_decide as Hcap; simpl in *.
      * by destruct tk.
      * subst. simpl in *. lia.
  - rewrite (worker_finish_0 p3 c rest Hrt3). lia.
Qed.

Lemma drain_quiesces n p :
  0 < max_workers → remaining p ≤ n →
  remaining (foldl (pool_step network max_workers client) p (drain n)) = 0.
Proof.
  intros Hw. revert p. induction n as [|n IH]; intros p Hp; simpl; [lia|].
  apply IH. pose proof (drain_round_remaining p Hw). lia.
Qed.

Lemma run_pool_quiescent decisions p :
  0 < max_workers →
  remaining (run_pool network max_workers client decisions p) = 0.
Proof.
  intros Hw. unfold run_pool. rewrite !foldl_app. simpl.
  set (p' := foldl _ (foldl _ p decisions) _).
  assert (remaining p' = 0) as Hp'.
  { apply drain_quiesces; [done|].
    apply (foldl_invariant (λ p', remaining p' ≤ remaining p)); [|done].
    intros p'' d Hp''. pose proof (pool_step_remaining p'' d). lia. }
  pose proof (pool_step_remaining p' (AsCompleted [])) as H. simpl in H. lia.
Qed.

(** A pool at rest stays as it is under the moves of the workers, so a list
    of decisions that brings the pool to rest and has the main thread call
    [as_completed] is run as it stands: every complete behaviour is the run
    of some list of decisions. *)
Lemma pool_step_at_rest p d :
  remaining p = 0 → is_Some (yielded p) →
  pool_step network max_workers client p d = p.
Proof.
  destruct p as [[|item q] [|x tk] [|z r] [|c rt] f [ys|] t],
    d as [|k|k|k|order];
    unfold remaining; simpl; intros ? [? ?]; (done || lia).
Qed.

Lemma run_pool_at_rest decisions p :
  remaining (foldl (pool_step network max_workers client) p decisions) = 0 →
  is_Some (yielded (foldl (pool_step network max_workers client) p decisions)) →
  run_pool network max_workers client decisions p
  = foldl (pool_step network max_workers client) p decisions.
Proof.
  intros Hrest Hcalled. unfold run_pool. rewrite foldl_app.
  generalize (drain (length (queue p) + length (taken p) + length (running p)
                     + length (returned p))
              ++ [AsCompleted []]). intros ds.
  induction ds as [|d ds IH]; simpl; [done|].
  by rewrite pool_step_at_rest.
Qed.

(** The main thread has called [as_completed] by the end of a run. *)
Lemma run_pool_yielded decisions p :
  is_Some (yielded (run_pool network max_workers client decisions p)).
Proof.
  unfold run_pool. rewrite (assoc (++)), foldl_app.
  generalize (foldl (pool_step network max_workers client) p
                (decisions
                 ++ drain (length (queue p) + length (taken p)
                           + length (running p) + length (returned p)))).
  intros [q tk r rt f [ys|] t]; simpl; eauto.
Qed.

(** The pool [fetch_models] runs: every submitted call comes back, whatever
    the decisions, and the wire never carries more than [max_workers]. *)
Lemma run_pool_spec decisions all_models :
  0 < max_workers →
  let p := run_pool network max_workers client decisions
             (mkPool (submitted all_models) [] [] [] [] None []) in
  queue p = [] ∧ running p = [] ∧
  finished p ≡ₚ settle network client <$> submitted all_models ∧
  wire_inv max_workers p.
Proof.
  intros Hw p.
  pose proof (run_pool_quiescent decisions
                (mkPool (submitted all_models) [] [] [] [] None []) Hw) as Hq.
  fold p in Hq. unfold remaining in Hq.
  assert (queue p = [] ∧ taken p = [] ∧ running p = [] ∧ returned p = [])
    as (Hqu & Htk & Hru & Hrt).
  { destruct (queue p), (taken p), (running p), (returned p); simpl in Hq;
      (done || lia). }
  split; [done|]. split; [done|]. split.
  - assert (settled network client p
            ≡ₚ settled network client
                 (mkPool (submitted all_models) [] [] [] [] None [])) as HS.
    { apply (foldl_invariant (λ p', settled network client p' ≡ₚ _)); [|done].
      intros p' d Hp'. by rewrite pool_step_settled. }
    unfold settled in HS. rewrite Hqu, Htk, Hru, Hrt in HS. simpl in HS.
    by rewrite !app_nil_r in HS.
  - apply (foldl_invariant (wire_inv max_workers)); [apply pool_step_wire|].
    unfold wire_inv; simpl. split_and!; [lia..|].
    intros t' ->%prefix_nil_inv. simpl. lia.
Qed.

(** What [as_completed] yields in the end: every submitted future, once,
    with the outcome of its probe, in some order; no worker holds an item
    any more. *)
Lemma run_pool_completed decisions all_models :
  0 < max_workers →
  let p := run_pool network max_workers client decisions
             (mkPool (submitted all_models) [] [] [] [] None []) in
  taken p = [] ∧ returned p = [] ∧
  completed_futures p ≡ₚ finished p ∧
  completed_futures p ≡ₚ settle network client <$> submitted all_models.
Proof.
  intros Hw p.
  destruct (run_pool_spec decisions all_models Hw) as (_ & _ & Hfin & _).
  fold p in Hfin.
  pose proof (run_pool_quiescent decisions
                (mkPool (submitted all_models) [] [] [] [] None []) Hw) as Hq.
  fold p in Hq. unfold remaining in Hq.
  assert (yielded_inv p) as Hy.
  { apply (foldl_invariant yielded_inv); [apply pool_step_yielded|]. by intros ys. }
  destruct (run_pool_yielded decisions
              (mkPool (submitted all_models) [] [] [] [] None [])) as [ys Hys].
  fold p in Hys. unfold completed_futures. rewrite Hys. simpl.
  split_and!.
  - destruct (taken p); [done|simpl in Hq; lia].
  - destruct (returned p); [done|simpl in Hq; lia].
  - by apply Hy.
  - by rewrite (Hy ys Hys).
Qed.

End PoolFacts.

(** * Aggregation *)

#[local] Arguments Nat.modulo : simpl never.

Ltac unfold_M :=
  unfold sys_exit, logger_info, logger_warning, logger_error, log_record,
    print, os_getenv, load_dotenv, dict_getitem, future_result in *;
  unfold mbind, M_bind, mret, M_ret, mthrow, M_throw in *.

Section AggregationFacts.

Context (network : Network) (client : ModelGardenServiceClient).

(** The futures of the submitted work name positions of the discovery list. *)
Lemma elem_of_settled_submitted all_models c :
  c ∈ settle network client <$> submitted all_models →
  ∃ model, all_models !! c.1 = Some model ∧
           c.2 = check_model_availability network client (name model).
Proof.
  intros (item & -> & Hitem)%list_elem_of_fmap.
  apply list_elem_of_lookup in Hitem as [i Hi]. unfold submitted in Hi.
  rewrite list_lookup_imap in Hi.
  destruct (all_models !! i) as [model|] eqn:Hm; simplify_eq/=. eauto.
Qed.

(** Read in submission order, the futures contribute the confirmed models. *)
Lemma omap_pick_settled (l0 l : list PublisherModel) :
  omap (pick (l0 ++ l))
    (settle network client <$> imap (λ i model, (length l0 + i, name model)) l)
  = filter (confirmed network client) l.
Proof.
  revert l0. induction l as [|model l IH]; intros l0; [done|].
  rewrite imap_cons, fmap_cons, filter_cons.
  assert (omap (pick (l0 ++ model :: l))
            (settle network client <$>
               imap ((λ i model0, (length l0 + i, name model0)) ∘ S) l)
          = filter (confirmed network client) l) as Htail.
  { rewrite <-(IH (l0 ++ [model])), <-(assoc (++)). simpl. f_equal. f_equal.
    apply imap_ext. intros i x _. simpl. rewrite length_app. simpl.
    f_equal. lia. }
  change (omap ?f (?x :: ?k))
    with (match f x with Some y => y :: omap f k | None => omap f k end).
  rewrite Htail. unfold pick, settle. simpl.
  rewrite Nat.add_0_r, list_lookup_middle by done.
  unfold confirmed at 1. case_decide as Hc.
  - by rewrite Hc.
  - destruct (check_model_availability _ _ _) as [[]|] eqn:E; congruence.
Qed.

Lemma omap_pick_submitted all_models :
  omap (pick all_models) (settle network client <$> submitted all_models)
  = filter (confirmed network client) all_models.
Proof. apply (omap_pick_settled [] all_models). Qed.

Lemma first_raise_None completed :
  first_raise completed = None ↔ Forall (λ c, ∃ b, c.2 = Return b) completed.
Proof.
  induction completed as [|[future [b|e]] rest IH]; simpl.
  - split; [by constructor|done].
  - rewrite IH. split; [constructor; eauto|by inversion 1].
  - split; [done|]. inversion 1 as [|?? [b Hb]]; simplify_eq/=.
Qed.

Lemma first_raise_Some completed e :
  first_raise completed = Some e → ∃ future, (future, Raise e) ∈ completed.
Proof.
  induction completed as [|[future [b|e']] rest IH]; simpl; [done|..].
  - intros [future' H]%IH. exists future'. by right.
  - intros [= ->]. exists future. by left.
Qed.

(** The loop touches nothing but the log. *)
Lemma as_completed_loop_world future_to_model total completed count acc w :
  let w' := (as_completed_loop future_to_model total completed count acc w).2 in
  environ w' = environ w ∧ net w' = net w ∧ stdout w' = stdout w ∧
  sched w' = sched w.
Proof.
  revert count acc w.
  induction completed as [|[future r] rest IH]; intros count acc w; simpl; [done|].
  unfold_M. destruct (future_to_model !! future) as [model|]; [|done].
  destruct r as [b|e]; [|done].
  case_bool_decide; simpl;
    match goal with
    | |- context [as_completed_loop _ _ _ ?c ?a ?w1] =>
        by destruct (IH c a w1) as (-> & -> & -> & ->)
    end.
Qed.

(** The loop is a left-to-right scan of the completed futures: it stops at
    the first exception, and otherwise appends the models picked. *)
Lemma as_completed_loop_outcome all_models total completed count acc w :
  Forall (λ c, is_Some (all_models !! c.1)) completed →
  (as_completed_loop (map_seq 0 all_models) total completed count acc w).1 =
  match first_raise completed with
  | Some e => Raise e
  | None => Return (acc ++ omap (pick all_models) completed)
  end.
Proof.
  revert count acc w.
  induction completed as [|[future r] rest IH]; intros count acc w Hv; simpl.
  - by rewrite app_nil_r.
  - apply Forall_cons in Hv as [[model Hmodel] Hv]. simpl in Hmodel.
    unfold_M. rewrite lookup_map_seq_0, Hmodel.
    destruct r as [b|e]; [|done].
    unfold pick at 1. simpl.
    case_bool_decide; rewrite IH by done; destruct (first_raise rest); try done;
      destruct b; simpl; by rewrite ?Hmodel, <-?(assoc (++)).
Qed.

End AggregationFacts.

(** * [fetch_models], path by path *)

Section FetchFacts.

Context (network : Network).

(** The listing fails: the call is on the wire, nothing else happens. *)
Lemma fetch_models_with_discovery_failure max_workers project_id region publisher e w :
  rpc_list_publisher_models network discovery_endpoint ("publishers/" +:+ publisher)
  = Raise e →
  fetch_models_with network max_workers project_id region publisher w =
  (Raise (if isinstance_Exception e then SystemExit 1 else e),
   mkWorld (environ w)
     (net w ++ [ListRequest discovery_endpoint ("publishers/" +:+ publisher)])
     (stderr w
      ++ ["INFO: Discovery: Fetching full catalog from " +:+ discovery_endpoint +:+ "..."]
      ++ (if isinstance_Exception e
          then ["ERROR: Failed to discover models: " +:+ str_exception e]
          else []))
     (stdout w) (sched w)).
Proof.
  intros Hlist. unfold fetch_models_with, try_except_Exception, list_publisher_models.
  unfold_M. simpl. rewrite Hlist.
  destruct (isinstance_Exception e); simpl; by rewrite <-?(assoc (++)), ?app_nil_r.
Qed.

(** The target region is the master region. *)
Lemma fetch_models_with_master max_workers project_id publisher all_models w :
  rpc_list_publisher_models network discovery_endpoint ("publishers/" +:+ publisher)
  = Return all_models →
  fetch_models_with network max_workers project_id "us-central1" publisher w =
  (Return all_models,
   mkWorld (environ w)
     (net w ++ [ListRequest discovery_endpoint ("publishers/" +:+ publisher)])
     (stderr w
      ++ ["INFO: Discovery: Fetching full catalog from " +:+ discovery_endpoint +:+ "...";
          "INFO: Discovery: Found " +:+ pretty (length all_models) +:+ " models in Master Catalog.";
          "INFO: Region is us-central1; returning full discovery catalog."])
     (stdout w) (sched w)).
Proof.
  intros Hlist. unfold fetch_models_with, try_except_Exception, list_publisher_models.
  unfold_M. simpl. rewrite Hlist. simpl. by rewrite <-!(assoc (++)).
Qed.

(** Any other region: the outcome is read off the futures of the pool once
    it has come to rest, and the wire carries the listing and the pool's
    traffic. *)
Lemma fetch_models_with_region max_workers project_id region publisher all_models w :
  0 < max_workers →
  region ≠ "us-central1" →
  rpc_list_publisher_models network discovery_endpoint ("publishers/" +:+ publisher)
  = Return all_models →
  let p := run_pool network max_workers (region_client region) (sched w)
             (mkPool (submitted all_models) [] [] [] [] None []) in
  let r := fetch_models_with network max_workers project_id region publisher w in
  r.1 = match first_raise (completed_futures p) with
        | Some e => Raise e
        | None => Return (omap (pick all_models) (completed_futures p))
        end ∧
  environ r.2 = environ w ∧
  net r.2 = net w ++ ListRequest discovery_endpoint ("publishers/" +:+ publisher) :: wire p ∧
  stdout r.2 = stdout w.
Proof.
  intros Hw Hregion Hlist p r.
  destruct (run_pool_completed network max_workers (region_client region)
              (sched w) all_models Hw) as (_ & _ & _ & Hfin). fold p in Hfin.
  assert (Forall (λ c, is_Some (all_models !! c.1)) (completed_futures p))
    as Hvalid.
  { apply Forall_forall. intros c Hc. rewrite Hfin in Hc.
    apply elem_of_settled_submitted in Hc as (model & -> & _). eauto. }
  subst r. unfold fetch_models_with, try_except_Exception, list_publisher_models.
  unfold_M. simpl. rewrite Hlist. simpl. rewrite bool_decide_false by done.
  unfold verify_availability. rewrite decide_False by lia.
  unfold executor_run. unfold_M. simpl. fold (region_client region).
  fold (submitted all_models). fold p. fold (completed_futures p).
  match goal with
  | |- context [as_completed_loop _ ?t ?c ?n ?a ?w1] =>
      pose proof (as_completed_loop_outcome all_models t c n a w1 Hvalid) as Hout;
      pose proof (as_completed_loop_world (map_seq 0 all_models) t c n a w1) as Hwd
  end.
  simpl in Hwd. destruct Hwd as (He & Hn & Ho & _).
  rewrite Hout, He, Hn, Ho. simpl. by rewrite <-(assoc (++)).
Qed.

Lemma elem_of_settled_submitted_2 client all_models model :
  model ∈ all_models →
  ∃ future, (future, check_model_availability network client (name model))
            ∈ settle network client <$> submitted all_models.
Proof.
  intros [i Hi]%list_elem_of_lookup. exists i.
  apply list_elem_of_fmap. exists (i, name model). split; [done|].
  apply list_elem_of_lookup. exists i. unfold submitted.
  by rewrite list_lookup_imap, Hi.
Qed.

(** What a call for a region other than the master region comes to: the
    confirmed models in some order when every probe settles on a boolean,
    and the exception of a probe otherwise. *)
Lemma fetch_models_with_outcome max_workers project_id region publisher all_models w :
  0 < max_workers →
  region ≠ "us-central1" →
  rpc_list_publisher_models network discovery_endpoint ("publishers/" +:+ publisher)
  = Return all_models →
  match (fetch_models_with network max_workers project_id region publisher w).1 with
  | Return l =>
      l ≡ₚ filter (confirmed network (region_client region)) all_models ∧
      ∀ model, model ∈ all_models →
        ∃ b, check_model_availability network (region_client region) (name model)
             = Return b
  | Raise e =>
      ∃ model, model ∈ all_models ∧
        check_model_availability network (region_client region) (name model)
        = Raise e
  end.
Proof.
  intros Hw Hregion Hlist.
  destruct (fetch_models_with_region max_workers project_id region publisher
              all_models w Hw Hregion Hlist) as (-> & _).
  destruct (run_pool_completed network max_workers (region_client region)
              (sched w) all_models Hw) as (_ & _ & _ & Hfin).
  set (p := run_pool _ _ _ _ _) in *. clearbody p.
  destruct (first_raise (completed_futures p)) as [e|] eqn:Hfirst.
  - apply first_raise_Some in Hfirst as [future Hin]. rewrite Hfin in Hin.
    apply elem_of_settled_submitted in Hin as (model & Hmodel & Hcheck).
    exists model. split; [by eapply list_elem_of_lookup_2|done].
  - split.
    + by rewrite Hfin, omap_pick_submitted.
    + intros model [future Hin]%(elem_of_settled_submitted_2 (region_client region)).
      rewrite <-Hfin in Hin. apply first_raise_None in Hfirst.
      rewrite Forall_forall in Hfirst. by apply Hfirst in Hin.
Qed.

(** Neither the decisions of the pool nor the number of its workers show in
    the outcome. *)
Lemma fetch_models_with_same_result max_workers1 max_workers2 project_id region publisher w1 w2 :
  0 < max_workers1 → 0 < max_workers2 →
  same_result
    (fetch_models_with network max_workers1 project_id region publisher w1).1
    (fetch_models_with network max_workers2 project_id region publisher w2).1.
Proof.
  intros Hw1 Hw2.
  destruct (rpc_list_publisher_models network discovery_endpoint
              ("publishers/" +:+ publisher)) as [all_models|e] eqn:Hlist.
  - destruct (decide (region = "us-central1")) as [->|Hregion].
    + rewrite !(fetch_models_with_master _ _ _ all_models) by done.
      simpl. reflexivity.
    + pose proof (fetch_models_with_outcome max_workers1 project_id region
                    publisher all_models w1 Hw1 Hregion Hlist) as H1.
      pose proof (fetch_models_with_outcome max_workers2 project_id region
                    publisher all_models w2 Hw2 Hregion Hlist) as H2.
      destruct (fetch_models_with _ max_workers1 _ _ _ _).1 as [l1|e1],
               (fetch_models_with _ max_workers2 _ _ _ _).1 as [l2|e2]; simpl.
      * destruct H1 as [-> _], H2 as [-> _]. reflexivity.
      * destruct H1 as [_ H1], H2 as (model & Hin & Hraise).
        destruct (H1 model Hin) as [b Hb]. congruence.
      * destruct H2 as [_ H2], H1 as (model & Hin & Hraise).
        destruct (H2 model Hin) as [b Hb]. congruence.
      * done.
  - rewrite !(fetch_models_with_discovery_failure _ _ _ _ e) by done. done.
Qed.

(** The traffic of a call, on every path, keeps within [max_workers]. *)
Lemma fetch_models_with_traffic max_workers project_id region publisher w :
  0 < max_workers →
  ∃ traffic,
    net (fetch_models_with network max_workers project_id region publisher w).2
    = net w ++ traffic ∧
    ∀ t, t `prefix_of` traffic →
         received t ≤ sent t ∧ sent t ≤ received t + max_workers.
Proof.
  intros Hw.
  assert (∀ t, t `prefix_of` [ListRequest discovery_endpoint ("publishers/" +:+ publisher)] →
               received t ≤ sent t ∧ sent t ≤ received t + max_workers) as Hone.
  { intros t [Ht| ->]%(prefix_snoc_cases _ []); [|simpl; lia].
    apply prefix_nil_inv in Ht as ->. simpl. lia. }
  destruct (rpc_list_publisher_models network discovery_endpoint
              ("publishers/" +:+ publisher)) as [all_models|e] eqn:Hlist.
  - destruct (decide (region = "us-central1")) as [->|Hregion].
    + rewrite (fetch_models_with_master _ _ _ all_models) by done. simpl. eauto.
    + destruct (fetch_models_with_region max_workers project_id region publisher
                  all_models w Hw Hregion Hlist) as (_ & _ & -> & _).
      destruct (run_pool_spec network max_workers (region_client region)
                  (sched w) all_models Hw) as (_ & _ & _ & _ & _ & _ & Hp).
      eexists. split; [done|]. intros [|x t]; [simpl; lia|].
      intros Ht. pose proof (prefix_cons_inv_1 _ _ _ _ Ht) as ->.
      apply prefix_cons_inv_2 in Ht. simpl. by apply Hp.
  - rewrite (fetch_models_with_discovery_failure _ _ _ _ e) by done. simpl. eauto.
Qed.

End FetchFacts.

(** * [get_project_id] and [main] *)

Lemma get_project_id_spec arg_project w :
  get_project_id arg_project w =
  match truthy arg_project with
  | Some p => (Return p, w)
  | None =>
      match truthy (environ w !! "GOOGLE_CLOUD_PROJECT") with
      | Some p => (Return p, w)
      | None =>
          (Raise (SystemExit 1),
           mkWorld (environ w) (net w)
             (stderr w ++ ["ERROR: Could not determine Project ID. Set GOOGLE_CLOUD_PROJECT env var or use --project."])
             (stdout w) (sched w))
      end
  end.
Proof.
  unfold get_project_id. destruct (truthy arg_project); [done|].
  unfold_M. by destruct (truthy (environ w !! _)).
Qed.

Lemma print_models_spec models w :
  print_models models w =
  (Return (),
   mkWorld (environ w) (net w) (stderr w)
     (stdout w ++ ((λ model, "- " +:+ name model +:+ ":predict") <$> models))
     (sched w)).
Proof.
  revert w. induction models as [|model rest IH]; intros w; simpl.
  - unfold_M. rewrite app_nil_r. by destruct w.
  - unfold_M. rewrite IH. simpl. by rewrite <-(assoc (++)).
Qed.

(** [main], one call after the other. *)
Lemma main_spec network dotenv args w :
  main network dotenv (Parsed args) w =
  let w1 := mkWorld (environ w ∪ dotenv) (net w) (stderr w) (stdout w) (sched w) in
  match get_project_id (project args) w1 with
  | (Raise e, w2) => (Raise e, w2)
  | (Return project_id, w2) =>
      let region := or_else (region args) (environ w2 !! "REGION") "us-central1" in
      match fetch_models network project_id region (publisher args) w2 with
      | (Raise e, w3) => (Raise e, w3)
      | (Return models, w3) =>
          (Return (),
           mkWorld (environ w3) (net w3)
             (stderr w3 ++
              [match models with
               | [] => "WARNING: No models found available in " +:+ region +:+ "."
               | _ :: _ =>
                   "INFO: Successfully retrieved " +:+ pretty (length models)
                   +:+ " models available in " +:+ region +:+ "."
               end])
             (stdout w3 ++ rendering region (publisher args) models)
             (sched w3))
      end
  end.
Proof.
  unfold main, parse_args. unfold_M. simpl.
  destruct (get_project_id _ _) as [[project_id|e] w2]; [|done].
  destruct (fetch_models _ _ _ _ _) as [[models|e] w3]; [|done].
  destruct models as [|model rest].
  - simpl. by rewrite app_nil_r.
  - rewrite print_models_spec. simpl. by rewrite <-(assoc (++)).
Qed.

(** [--help]: the help text on standard output, status 0, and nothing else. *)
Lemma main_help_spec network dotenv help w :
  main network dotenv (HelpRequested help) w =
  (Raise (SystemExit 0),
   mkWorld (environ w ∪ dotenv) (net w) (stderr w) (stdout w ++ help) (sched w)).
Proof. done. Qed.

(** A command line [argparse] rejects: the complaint on standard error,
    status 2, and nothing else. *)
Lemma main_rejected_spec network dotenv complaint w :
  main network dotenv (Rejected complaint) w =
  (Raise (SystemExit 2),
   mkWorld (environ w ∪ dotenv) (net w) (stderr w ++ complaint) (stdout w)
     (sched w)).
Proof. done. Qed.

(** * The probe *)

Lemma check_model_availability_spec network client model_name :
  check_model_availability network client model_name =
  match get_publisher_model network client model_name with
  | Return _ => Return true
  | Raise e => if isinstance_Exception e then Return false else Raise e
  end.
Proof.
  unfold check_model_availability.
  destruct (get_publisher_model _ _ _) as [model|e]; [done|]. by destruct e.
Qed.

(** The failures the probe is written for are errors, and an error makes
    the probe answer [False]. *)
Lemma listed_failures_are_errors message :
  isinstance_Exception (NotFound message) = true ∧
  isinstance_Exception (PermissionDenied message) = true ∧
  isinstance_Exception (InternalServerError message) = true ∧
  isinstance_Exception (DeadlineExceeded message) = true ∧
  isinstance_Exception (DecodeError message) = true.
Proof. done. Qed.

Lemma check_model_availability_fails_closed network client model_name e :
  get_publisher_model network client model_name = Raise e →
  isinstance_Exception e = true →
  check_model_availability network client model_name = Return false.
Proof. intros Hget He. by rewrite check_model_availability_spec, Hget, He. Qed.

(** What [except Exception] leaves out goes through the probe untouched. *)
Lemma check_model_availability_passes_base_exceptions network client model_name e :
  get_publisher_model network client model_name = Raise e →
  isinstance_Exception e = false →
  check_model_availability network client model_name = Raise e.
Proof. intros Hget He. by rewrite check_model_availability_spec, Hget, He. Qed.

Lemma check_model_availability_returns network client all_models model :
  fails_with_errors_only network client all_models →
  model ∈ all_models →
  ∃ b, check_model_availability network client (name model) = Return b.
Proof.
  intros Herr Hin. rewrite check_model_availability_spec.
  destruct (get_publisher_model _ _ _) as [x|e] eqn:Hget; [eauto|].
  rewrite (Herr model e Hin Hget). eauto.
Qed.

(** The probe answers [True] exactly when the fetch came back. *)
Lemma confirmed_iff_found network client model :
  confirmed network client model ↔ found network client model.
Proof.
  unfold confirmed, found. rewrite check_model_availability_spec.
  destruct (get_publisher_model _ _ _) as [details|e].
  - split; [eauto|done].
  - split; [by destruct (isinstance_Exception e)|by intros [? ?]].
Qed.

(** When every probe failure is an error, a call for a target region
    returns the confirmed models in some order. *)
Lemma fetch_models_with_returns network max_workers project_id region publisher all_models w :
  0 < max_workers →
  region ≠ "us-central1" →
  rpc_list_publisher_models network discovery_endpoint ("publishers/" +:+ publisher)
  = Return all_models →
  fails_with_errors_only network (region_client region) all_models →
  ∃ l w', fetch_models_with network max_workers project_id region publisher w
          = (Return l, w') ∧
          l ≡ₚ filter (confirmed network (region_client region)) all_models.
Proof.
  intros Hw Hregion Hlist Herr.
  pose proof (fetch_models_with_outcome network max_workers project_id region
                publisher all_models w Hw Hregion Hlist) as H.
  destruct (fetch_models_with _ _ _ _ _ _) as [[l|e] w']; simpl in H.
  - exists l, w'. by destruct H.
  - destruct H as (model & Hin & Hraise).
    destruct (check_model_availability_returns _ _ _ _ Herr Hin). congruence.
Qed.

(** The scenario of the specification, under any decisions of the pool. *)
Lemma scenario_found_notfound_timeout network project_id region publisher a b c w :
  region ≠ "us-central1" →
  rpc_list_publisher_models network discovery_endpoint ("publishers/" +:+ publisher)
  = Return [a; b; c] →
  get_publisher_model network (region_client region) (name a) = Return a →
  (∃ m, get_publisher_model network (region_client region) (name b) = Raise (NotFound m)) →
  (∃ m, get_publisher_model network (region_client region) (name c) = Raise (DeadlineExceeded m)) →
  (fetch_models network project_id region publisher w).1 = Return [a].
Proof.
  intros Hregion Hlist Ha [mb Hb] [mc Hc].
  assert (fails_with_errors_only network (region_client region) [a; b; c]) as Herr.
  { intros model e Hin Hget. set_unfold in Hin.
    destruct Hin as [->|[->|[->|[]]]]; rewrite ?Ha, ?Hb, ?Hc in Hget;
      by simplify_eq. }
  destruct (fetch_models_with_returns network 50 project_id region publisher
              [a; b; c] w ltac:(lia) Hregion Hlist Herr) as (l & w' & Hrun & Hl).
  unfold fetch_models. rewrite Hrun. simpl. f_equal.
  apply Permutation_singleton_r. rewrite Hl.
  pose proof (check_model_availability_spec network (region_client region) (name a)) as Ca.
  pose proof (check_model_availability_spec network (region_client region) (name b)) as Cb.
  pose proof (check_model_availability_spec network (region_client region) (name c)) as Cc.
  rewrite Ha in Ca. rewrite Hb in Cb. rewrite Hc in Cc. simpl in Cb, Cc.
  rewrite !filter_cons, filter_nil. unfold confirmed.
  rewrite decide_True by done. rewrite !decide_False by congruence. done.
Qed.

(** * The scenarios, run *)

Example probe_found :
  check_model_availability scenario_network (region_client "europe-west4")
    "publishers/google/models/a" = Return true.
Proof. reflexivity. Qed.

Example probe_not_found :
  check_model_availability scenario_network (region_client "europe-west4")
    "publishers/google/models/b" = Return false.
Proof. reflexivity. Qed.

Example probe_timeout :
  check_model_availability scenario_network (region_client "europe-west4")
    "publishers/google/models/c" = Return false.
Proof. reflexivity. Qed.

Example probe_exits :
  check_model_availability exiting_network (region_client "europe-west4")
    "publishers/google/models/b" = Raise (SystemExit 2).
Proof. reflexivity. Qed.

(** The three calls go out together and come back last first. *)
Example scenario_last_first :
  fetch_models scenario_network "my-project" "europe-west4" "google"
    (fresh_world last_first) =
  (Return [model_a],
   mkWorld ∅
     [ListRequest "us-central1-aiplatform.googleapis.com" "publishers/google";
      GetRequest "europe-west4-aiplatform.googleapis.com" "publishers/google/models/a";
      GetRequest "europe-west4-aiplatform.googleapis.com" "publishers/google/models/b";
      GetRequest "europe-west4-aiplatform.googleapis.com" "publishers/google/models/c";
      GetResponse "europe-west4-aiplatform.googleapis.com" "publishers/google/models/c";
      GetResponse "europe-west4-aiplatform.googleapis.com" "publishers/google/models/b";
      GetResponse "europe-west4-aiplatform.googleapis.com" "publishers/google/models/a"]
     ["INFO: Discovery: Fetching full catalog from us-central1-aiplatform.googleapis.com...";
      "INFO: Discovery: Found 3 models in Master Catalog.";
      "INFO: Filtering: Verifying availability in europe-west4 for 3 models..."]
     [] []).
Proof. vm_compute. reflexivity. Qed.

(** The futures are set last first before the main thread calls
    [as_completed], and here its set holds them in that order: the result
    is not in the order of discovery. *)
Example permissive_last_first :
  (fetch_models permissive_network "my-project" "europe-west4" "google"
     (fresh_world last_first)).1
  = Return [mkPublisherModel "publishers/google/models/c" "001";
            mkPublisherModel "publishers/google/models/b" "001";
            mkPublisherModel "publishers/google/models/a" "001"].
Proof. vm_compute. reflexivity. Qed.

(** The calls need not go out in the order of discovery. *)
Example scenario_sent_c_a_b :
  requested (net (fetch_models scenario_network "my-project" "europe-west4" "google"
                    (fresh_world sent_c_a_b)).2) =
  ["publishers/google/models/c"; "publishers/google/models/a";
   "publishers/google/models/b"].
Proof. vm_compute. reflexivity. Qed.

(** One worker: the calls go out one at a time, in submission order,
    whatever the decisions ask for. *)
Example scenario_one_worker :
  net (fetch_models_with scenario_network 1 "my-project" "europe-west4" "google"
         (fresh_world last_first)).2 =
  [ListRequest "us-central1-aiplatform.googleapis.com" "publishers/google";
   GetRequest "europe-west4-aiplatform.googleapis.com" "publishers/google/models/a";
   GetResponse "europe-west4-aiplatform.googleapis.com" "publishers/google/models/a";
   GetRequest "europe-west4-aiplatform.googleapis.com" "publishers/google/models/b";
   GetResponse "europe-west4-aiplatform.googleapis.com" "publishers/google/models/b";
   GetRequest "europe-west4-aiplatform.googleapis.com" "publishers/google/models/c";
   GetResponse "europe-west4-aiplatform.googleapis.com" "publishers/google/models/c"].
Proof. vm_compute. reflexivity. Qed.

(** What a probe raises past [except Exception] is raised again by
    [future.result()]; the other calls are answered all the same before the
    [with] block is left. *)
Example exiting_run :
  let r := fetch_models exiting_network "my-project" "europe-west4" "google"
             (fresh_world last_first) in
  r.1 = Raise (SystemExit 2) ∧ sent (net r.2) = 3 ∧ received (net r.2) = 3.
Proof. vm_compute. done. Qed.

Example main_without_project :
  main scenario_network ∅ (Parsed (mkNamespace None (Some "europe-west4") "google"))
    (fresh_world []) =
  (Raise (SystemExit 1),
   mkWorld ∅ []
     ["ERROR: Could not determine Project ID. Set GOOGLE_CLOUD_PROJECT env var or use --project."]
     [] []).
Proof. vm_compute. reflexivity. Qed.

Example main_prints_policy_lines :
  stdout (main scenario_network ∅
            (Parsed (mkNamespace (Some "my-project") (Some "europe-west4") "google"))
            (fresh_world last_first)).2 =
  ["# Models available in europe-west4 for publisher 'google'";
   "- publishers/google/models/a:predict"].
Proof. vm_compute. reflexivity. Qed.

(** * The claims *)

Lemma filter_submseteq {A} (P : A → Prop) `{∀ x, Decision (P x)} (l1 l2 : list A) :
  l1 ⊆+ l2 → filter P l1 ⊆+ filter P l2.
Proof.
  induction 1 as [|x l1 l2 _ IH|x y l|x l1 l2 _ IH|l1 l2 l3 _ IH1 _ IH2].
  - done.
  - rewrite !filter_cons. case_decide; [by apply submseteq_skip|done].
  - rewrite !filter_cons. repeat case_decide; try done. apply submseteq_swap.
  - rewrite filter_cons. case_decide; [by apply submseteq_cons|done].
  - by etrans.
Qed.

Lemma occurrences_submseteq model_name l1 l2 :
  l1 ⊆+ l2 → occurrences model_name l1 ≤ occurrences model_name l2.
Proof. intros H. apply submseteq_length, filter_submseteq, H. Qed.

(** C1, fail-closed filtering.  For a target region other than the master
    region, a discovery list [all_models] and probes whose failures are
    errors (not found, permission denied, server error, timeout, malformed
    response), [fetch_models] returns a list [l], and of that list: a model
    whose fetch came back has [check_model_availability] return [True] and
    is in [l]; a model whose fetch raised has [check_model_availability]
    return [False] and is not in [l]; a model is in [l] if and only if it
    was discovered and its probe returned [True], which is if and only if it
    was discovered and its fetch came back; [l] holds the discovered models
    whose fetch came back, each as often as it was discovered, and no other;
    and for a discovery list [a; b; c] with [a] found, [b] not found and [c]
    timed out, [l] is [[a]]. *)
Theorem fail_closed_filtering network project_id region publisher all_models w :
  region ≠ "us-central1" →
  rpc_list_publisher_models network discovery_endpoint ("publishers/" +:+ publisher)
  = Return all_models →
  fails_with_errors_only network (region_client region) all_models →
  match (fetch_models network project_id region publisher w).1 with
  | Raise _ => False
  | Return l =>
      (∀ model details,
         model ∈ all_models →
         get_publisher_model network (region_client region) (name model)
         = Return details →
         check_model_availability network (region_client region) (name model)
         = Return true ∧ model ∈ l) ∧
      (∀ model e,
         model ∈ all_models →
         get_publisher_model network (region_client region) (name model) = Raise e →
         check_model_availability network (region_client region) (name model)
         = Return false ∧ model ∉ l) ∧
      (∀ model,
         model ∈ l ↔
         model ∈ all_models ∧
         check_model_availability network (region_client region) (name model)
         = Return true) ∧
      (∀ model,
         model ∈ l ↔
         model ∈ all_models ∧ found network (region_client region) model) ∧
      l ≡ₚ filter (found network (region_client region)) all_models ∧
      (∀ a b c mb mc,
         all_models = [a; b; c] →
         found network (region_client region) a →
         get_publisher_model network (region_client region) (name b)
         = Raise (NotFound mb) →
         get_publisher_model network (region_client region) (name c)
         = Raise (DeadlineExceeded mc) →
         l = [a])
  end.
Proof.
  intros Hregion Hlist Herr.
  destruct (fetch_models_with_returns network 50 project_id region publisher
              all_models w ltac:(lia) Hregion Hlist Herr) as (l & w' & Hrun & Hl).
  unfold fetch_models. rewrite Hrun. simpl.
  assert (l ≡ₚ filter (found network (region_client region)) all_models) as Hl'.
  { rewrite Hl. erewrite list_filter_iff; [done|].
    intros model. apply confirmed_iff_found. }
  assert (∀ model, model ∈ l ↔ model ∈ all_models ∧
            check_model_availability network (region_client region) (name model)
            = Return true) as Hiff.
  { intros model. rewrite Hl, list_elem_of_filter. unfold confirmed. tauto. }
  assert (∀ model, model ∈ l ↔
            model ∈ all_models ∧ found network (region_client region) model)
    as Hiff'.
  { intros model. rewrite Hl', list_elem_of_filter. tauto. }
  split_and!; [| |done|done|done|].
  - intros model details Hin Hget. split.
    + by rewrite check_model_availability_spec, Hget.
    + apply Hiff'. split; [done|]. by exists details.
  - intros model e Hin Hget.
    assert (check_model_availability network (region_client region) (name model)
            = Return false) as Hfalse.
    { rewrite check_model_availability_spec, Hget.
      by rewrite (Herr model e Hin Hget). }
    split; [done|]. rewrite Hiff. intros [_ Htrue]. congruence.
  - intros a b c mb mc -> Ha Hb Hc. apply Permutation_singleton_r.
    rewrite Hl', !filter_cons, filter_nil.
    rewrite decide_True by done.
    rewrite !decide_False; [done|..]; intros [details Hd]; congruence.
Qed.

Lemma fail_closed_filtering_witness :
  (fetch_models scenario_network "my-project" "europe-west4" "google"
     (fresh_world set_order_b_c_a)).1 = Return [model_a].
Proof.
  pose proof (fail_closed_filtering scenario_network "my-project" "europe-west4"
                "google" [model_a; model_b; model_c]
                (fresh_world set_order_b_c_a)) as H.
  destruct (fetch_models scenario_network "my-project" "europe-west4" "google"
              (fresh_world set_order_b_c_a)).1 as [l|e].
  - f_equal.
    assert ("europe-west4" ≠ "us-central1") as Hregion by discriminate.
    assert (fails_with_errors_only scenario_network
              (region_client "europe-west4") [model_a; model_b; model_c])
      as Herr.
    { intros model e Hin Hget. set_unfold in Hin.
      destruct Hin as [->|[->|[->|[]]]]; vm_compute in Hget;
        [discriminate | injection Hget as <-; reflexivity..]. }
    destruct (H Hregion eq_refl Herr) as (_ & _ & _ & _ & _ & Hscenario).
    apply (Hscenario model_a model_b model_c
             "Publisher model not found" "Deadline Exceeded").
    + reflexivity.
    + by exists model_a.
    + reflexivity.
    + reflexivity.
  - exfalso. apply H; [discriminate|reflexivity|].
    intros model e' Hin Hget. set_unfold in Hin.
    destruct Hin as [->|[->|[->|[]]]]; vm_compute in Hget;
      [discriminate | injection Hget as <-; reflexivity..].
Defined.

(** C2, subset.  Whatever list [fetch_models] returns, the listing of the
    master catalogue returned a list [all_models] of which the result is a
    sub-multiset ([⊆+]: a rearrangement of a sublist).  So every model
    returned was discovered, every identifier returned was discovered, and
    no identifier occurs more often in the result than in the discovery
    list. *)
Theorem fetch_models_subset network project_id region publisher w l w' :
  fetch_models network project_id region publisher w = (Return l, w') →
  ∃ all_models,
    rpc_list_publisher_models network discovery_endpoint ("publishers/" +:+ publisher)
    = Return all_models ∧
    l ⊆+ all_models ∧
    (∀ model, model ∈ l → model ∈ all_models) ∧
    (∀ model_name, model_name ∈ name <$> l → model_name ∈ name <$> all_models) ∧
    (∀ model_name, occurrences model_name l ≤ occurrences model_name all_models).
Proof.
  intros Hrun. unfold fetch_models in Hrun.
  destruct (rpc_list_publisher_models network discovery_endpoint
              ("publishers/" +:+ publisher)) as [all_models|e] eqn:Hlist.
  - exists all_models. split; [done|].
    assert (l ⊆+ all_models) as Hsub.
    { destruct (decide (region = "us-central1")) as [->|Hregion].
      - rewrite (fetch_models_with_master _ _ _ _ all_models) in Hrun by done.
        by simplify_eq.
      - pose proof (fetch_models_with_outcome network 50 project_id region
                      publisher all_models w ltac:(lia) Hregion Hlist) as H.
        rewrite Hrun in H. simpl in H. destruct H as [-> _].
        apply sublist_submseteq, sublist_filter. }
    split; [done|]. split; [|split].
    + intros model Hin. by eapply elem_of_submseteq.
    + intros model_name Hin. eapply elem_of_submseteq; [done|].
      by apply fmap_submseteq.
    + intros model_name. by apply occurrences_submseteq.
  - rewrite (fetch_models_with_discovery_failure _ _ _ _ _ e) in Hrun by done.
    by simplify_eq.
Qed.

Lemma fetch_models_subset_witness :
  ∃ all_models,
    rpc_list_publisher_models scenario_network discovery_endpoint
      ("publishers/" +:+ "google") = Return all_models ∧
    [model_a] ⊆+ all_models ∧
    (∀ model, model ∈ [model_a] → model ∈ all_models) ∧
    (∀ model_name, model_name ∈ name <$> [model_a] → model_name ∈ name <$> all_models) ∧
    (∀ model_name, occurrences model_name [model_a] ≤ occurrences model_name all_models).
Proof.
  apply (fetch_models_subset scenario_network "my-project" "europe-west4" "google"
           (fresh_world last_first) [model_a]
           (fetch_models scenario_network "my-project" "europe-west4" "google"
              (fresh_world last_first)).2).
  vm_compute. reflexivity.
Defined.

(** C3, fast-path identity.  When the target region is "us-central1",
    [fetch_models] returns the discovery list itself, and the only call it
    puts on the wire is the listing: no [get_publisher_model] request is
    sent and the pool takes no decision. *)
Theorem fast_path_identity network project_id publisher all_models w :
  rpc_list_publisher_models network discovery_endpoint ("publishers/" +:+ publisher)
  = Return all_models →
  ∃ w',
    fetch_models network project_id "us-central1" publisher w = (Return all_models, w') ∧
    net w' = net w ++ [ListRequest discovery_endpoint ("publishers/" +:+ publisher)] ∧
    sent (net w') = sent (net w) ∧
    sched w' = sched w.
Proof.
  intros Hlist. unfold fetch_models.
  rewrite (fetch_models_with_master _ _ _ _ all_models) by done.
  eexists. split; [done|]. simpl. split; [done|]. split; [|done].
  rewrite sent_app. simpl. lia.
Qed.

Lemma fast_path_identity_witness :
  length fifty_models = 50 ∧
  ∃ w',
    fetch_models fifty_network "my-project" "us-central1" "google" (fresh_world [])
    = (Return fifty_models, w') ∧
    net w' = net (fresh_world [])
             ++ [ListRequest discovery_endpoint ("publishers/" +:+ "google")] ∧
    sent (net w') = sent (net (fresh_world [])) ∧
    sched w' = sched (fresh_world []).
Proof.
  split; [reflexivity|].
  apply (fast_path_identity fifty_network "my-project" "google" fifty_models
           (fresh_world [])).
  reflexivity.
Defined.

(** C4, discovery failure is fatal.  When the listing of the master
    catalogue fails with an error [e], [fetch_models] logs the failure on
    standard error and raises [SystemExit(1)], which is how the script
    surfaces a discovery error: the listing is the only call on the wire, no
    probe is sent, the pool takes no decision, and no list is returned in
    place of the catalogue.  [main] ends with [SystemExit(1)] too, so the
    process exits with status 1, with nothing written to standard output. *)
Theorem discovery_failure_is_fatal network dotenv args project_id region e w :
  rpc_list_publisher_models network discovery_endpoint
    ("publishers/" +:+ publisher args) = Raise e →
  isinstance_Exception e = true →
  fetch_models network project_id region (publisher args) w =
    (Raise (SystemExit 1),
     mkWorld (environ w)
       (net w ++ [ListRequest discovery_endpoint ("publishers/" +:+ publisher args)])
       (stderr w
        ++ ["INFO: Discovery: Fetching full catalog from " +:+ discovery_endpoint +:+ "...";
            "ERROR: Failed to discover models: " +:+ str_exception e])
       (stdout w) (sched w)) ∧
  let r := main network dotenv (Parsed args) w in
  r.1 = Raise (SystemExit 1) ∧
  exit_status r.1 = 1%Z ∧
  stdout r.2 = stdout w ∧
  sent (net r.2) = sent (net w) ∧
  sched r.2 = sched w.
Proof.
  intros Hlist He.
  assert (∀ project_id region w,
            fetch_models network project_id region (publisher args) w =
            (Raise (SystemExit 1),
             mkWorld (environ w)
               (net w ++ [ListRequest discovery_endpoint ("publishers/" +:+ publisher args)])
               (stderr w
                ++ ["INFO: Discovery: Fetching full catalog from " +:+ discovery_endpoint +:+ "...";
                    "ERROR: Failed to discover models: " +:+ str_exception e])
               (stdout w) (sched w))) as Hfetch.
  { intros p r' w0. unfold fetch_models.
    rewrite (fetch_models_with_discovery_failure _ _ _ _ _ e) by done.
    by rewrite He. }
  split; [apply Hfetch|]. intros r. subst r. rewrite main_spec. simpl.
  rewrite get_project_id_spec.
  destruct (truthy (project args)) as [p|]; simpl.
  - rewrite Hfetch. simpl. rewrite sent_app. simpl. split_and!; (done || lia).
  - destruct (truthy ((environ w ∪ dotenv) !! "GOOGLE_CLOUD_PROJECT")) as [p|]; simpl.
    + rewrite Hfetch. simpl. rewrite sent_app. simpl. split_and!; (done || lia).
    + done.
Qed.

Lemma discovery_failure_is_fatal_witness :
  let args := mkNamespace (Some "my-project") (Some "europe-west4") "google" in
  let r := main broken_network ∅ (Parsed args) (fresh_world last_first) in
  r.1 = Raise (SystemExit 1) ∧
  exit_status r.1 = 1%Z ∧
  stdout r.2 = [] ∧
  sent (net r.2) = 0 ∧
  sched r.2 = last_first.
Proof.
  exact (proj2 (discovery_failure_is_fatal broken_network ∅
                  (mkNamespace (Some "my-project") (Some "europe-west4") "google")
                  "my-project" "europe-west4"
                  (InternalServerError "connection reset")
                  (fresh_world last_first) eq_refl eq_refl)).
Defined.

(** C5, completeness barrier.  For a target region other than the master
    region, whatever decisions the pool takes: when [fetch_models] is over
    no work item is queued, held by a worker or in flight, and the finished
    futures are exactly the submitted ones, each once and each with the
    outcome of its probe; the wire the caller is left with carries one
    request and one response per discovered model; the futures
    [as_completed] has yielded are all of them, in some order; and the
    outcome of [fetch_models] is read off all of these futures: a list it
    returns is the confirmed models of the whole discovery list, every probe
    having returned, and an exception it raises is the one a probe of the
    discovery list raised. *)
Theorem completeness_barrier network project_id region publisher all_models w :
  region ≠ "us-central1" →
  rpc_list_publisher_models network discovery_endpoint ("publishers/" +:+ publisher)
  = Return all_models →
  let p := run_pool network 50 (region_client region) (sched w)
             (mkPool (submitted all_models) [] [] [] [] None []) in
  let r := fetch_models network project_id region publisher w in
  queue p = [] ∧ taken p = [] ∧ running p = [] ∧ returned p = [] ∧
  finished p ≡ₚ settle network (region_client region) <$> submitted all_models ∧
  completed_futures p
  ≡ₚ settle network (region_client region) <$> submitted all_models ∧
  net r.2 = net w ++ ListRequest discovery_endpoint ("publishers/" +:+ publisher) :: wire p ∧
  sent (wire p) = length all_models ∧
  received (wire p) = length all_models ∧
  (∃ completed,
     completed ≡ₚ settle network (region_client region) <$> submitted all_models ∧
     r.1 = match first_raise completed with
           | Some e => Raise e
           | None => Return (omap (pick all_models) completed)
           end) ∧
  (∀ l, r.1 = Return l →
        l ≡ₚ filter (confirmed network (region_client region)) all_models ∧
        ∀ model, model ∈ all_models →
          ∃ b, check_model_availability network (region_client region)
                 (name model) = Return b) ∧
  (∀ e, r.1 = Raise e →
        ∃ model, model ∈ all_models ∧
          check_model_availability network (region_client region) (name model)
          = Raise e).
Proof.
  intros Hregion Hlist p r.
  destruct (run_pool_spec network 50 (region_client region) (sched w) all_models
              ltac:(lia)) as (Hq & Hr & Hfin & _ & Hsent & Hrecv & _).
  destruct (run_pool_completed network 50 (region_client region) (sched w)
              all_models ltac:(lia)) as (Htk & Hrt & _ & Hyield).
  destruct (fetch_models_with_region network 50 project_id region publisher
              all_models w ltac:(lia) Hregion Hlist) as (Hout & _ & Hnet & _).
  pose proof (fetch_models_with_outcome network 50 project_id region publisher
                all_models w ltac:(lia) Hregion Hlist) as Hagg.
  fold p in Hq, Hr, Hfin, Hsent, Hrecv, Hout, Hnet, Htk, Hrt, Hyield.
  change (fetch_models_with network 50 project_id region publisher w) with r
    in Hout, Hnet, Hagg.
  assert (length (finished p) = length all_models) as Hlen.
  { rewrite Hfin, length_fmap. unfold submitted. by rewrite length_imap. }
  rewrite Hr in Hsent. rewrite Hrt in Hrecv. simpl in Hsent, Hrecv.
  split_and!; try done; try lia.
  - by exists (completed_futures p).
  - intros l Hl. by rewrite Hl in Hagg.
  - intros e He. by rewrite He in Hagg.
Qed.

Lemma completeness_barrier_witness :
  let all_models := [model_a; model_b; model_c] in
  let p := run_pool scenario_network 50 (region_client "europe-west4")
             futures_set_b_c_a
             (mkPool (submitted all_models) [] [] [] [] None []) in
  let r := fetch_models scenario_network "my-project" "europe-west4" "google"
             (fresh_world futures_set_b_c_a) in
  queue p = [] ∧ taken p = [] ∧ running p = [] ∧ returned p = [] ∧
  finished p ≡ₚ settle scenario_network (region_client "europe-west4")
                  <$> submitted all_models ∧
  completed_futures p
  ≡ₚ settle scenario_network (region_client "europe-west4")
       <$> submitted all_models ∧
  net r.2 = net (fresh_world futures_set_b_c_a)
            ++ ListRequest discovery_endpoint ("publishers/" +:+ "google") :: wire p ∧
  sent (wire p) = 3 ∧
  received (wire p) = 3 ∧
  (∃ completed,
     completed ≡ₚ settle scenario_network (region_client "europe-west4")
                    <$> submitted all_models ∧
     r.1 = match first_raise completed with
           | Some e => Raise e
           | None => Return (omap (pick all_models) completed)
           end) ∧
  (∀ l, r.1 = Return l →
        l ≡ₚ filter (confirmed scenario_network (region_client "europe-west4"))
               all_models ∧
        ∀ model, model ∈ all_models →
          ∃ b, check_model_availability scenario_network
                 (region_client "europe-west4") (name model) = Return b) ∧
  (∀ e, r.1 = Raise e →
        ∃ model, model ∈ all_models ∧
          check_model_availability scenario_network
            (region_client "europe-west4") (name model) = Raise e).
Proof.
  apply (completeness_barrier scenario_network "my-project" "europe-west4" "google"
           [model_a; model_b; model_c] (fresh_world futures_set_b_c_a)).
  - discriminate.
  - reflexivity.
Defined.

(** C6, determinism.  The oracle being a function, two calls of
    [fetch_models] with the same project, region and publisher agree
    whatever the worlds they start from, and so whatever the decisions of
    their pools: both return, and the lists have the same elements, each as
    many times; or both raise. *)
Theorem result_set_is_deterministic network project_id region publisher w1 w2 :
  same_result (fetch_models network project_id region publisher w1).1
              (fetch_models network project_id region publisher w2).1 ∧
  ∀ l1 l2,
    (fetch_models network project_id region publisher w1).1 = Return l1 →
    (fetch_models network project_id region publisher w2).1 = Return l2 →
    l1 ≡ₚ l2 ∧ ∀ model, model ∈ l1 ↔ model ∈ l2.
Proof.
  pose proof (fetch_models_with_same_result network 50 50 project_id region
                publisher w1 w2 ltac:(lia) ltac:(lia)) as H.
  split; [done|]. intros l1 l2 H1 H2. unfold fetch_models in *.
  rewrite H1, H2 in H. simpl in H. split; [done|]. intros model. by rewrite H.
Qed.

Lemma result_set_is_deterministic_witness :
  (fetch_models scenario_network "my-project" "europe-west4" "google"
     (fresh_world [])).1 = Return [model_a] ∧
  (fetch_models scenario_network "my-project" "europe-west4" "google"
     (fresh_world last_first)).1 = Return [model_a] ∧
  [model_a] ≡ₚ [model_a].
Proof.
  split; [reflexivity|]. split; [reflexivity|].
  apply (proj2 (result_set_is_deterministic scenario_network "my-project"
                  "europe-west4" "google" (fresh_world []) (fresh_world last_first))
           [model_a] [model_a] eq_refl eq_refl).
Defined.

(** C7, containment of probe failures.  When every failure of a probe is an
    error, [check_model_availability] returns a boolean for every discovered
    model, and [fetch_models] returns a list: no exception of a probe
    reaches its caller. *)
Theorem probe_failures_are_contained network project_id region publisher all_models w :
  rpc_list_publisher_models network discovery_endpoint ("publishers/" +:+ publisher)
  = Return all_models →
  fails_with_errors_only network (region_client region) all_models →
  (∀ model, model ∈ all_models →
     ∃ b, check_model_availability network (region_client region) (name model)
          = Return b) ∧
  ∃ l w', fetch_models network project_id region publisher w = (Return l, w').
Proof.
  intros Hlist Herr. split.
  - intros model Hin. by eapply check_model_availability_returns.
  - unfold fetch_models. destruct (decide (region = "us-central1")) as [->|Hregion].
    + rewrite (fetch_models_with_master _ _ _ _ all_models) by done. eauto.
    + destruct (fetch_models_with_returns network 50 project_id region publisher
                  all_models w ltac:(lia) Hregion Hlist Herr) as (l & w' & -> & _).
      eauto.
Qed.

Lemma probe_failures_are_contained_witness :
  (∀ model, model ∈ [model_a; model_b; model_c] →
     ∃ b, check_model_availability scenario_network (region_client "europe-west4")
            (name model) = Return b) ∧
  ∃ l w', fetch_models scenario_network "my-project" "europe-west4" "google"
            (fresh_world last_first) = (Return l, w').
Proof.
  apply (probe_failures_are_contained scenario_network "my-project" "europe-west4"
           "google" [model_a; model_b; model_c] (fresh_world last_first)).
  - reflexivity.
  - intros model e Hin Hget. set_unfold in Hin.
    destruct Hin as [->|[->|[->|[]]]]; vm_compute in Hget;
      [discriminate | injection Hget as <-; reflexivity..].
Defined.

(** C8, concurrency bound.  The traffic of a call of [fetch_models] is such
    that, at every moment of it, the requests sent without a response yet
    number at most 50.  The same holds of a pool of [max_workers] workers
    with [max_workers] as the bound, for any [max_workers] from 1 up, and
    the outcome of such a call agrees with that of [fetch_models]: the same
    models, each as many times. *)
Theorem concurrency_bound network max_workers project_id region publisher w w0 :
  1 ≤ max_workers →
  (∃ traffic,
     net (fetch_models network project_id region publisher w).2 = net w ++ traffic ∧
     ∀ t, t `prefix_of` traffic → received t ≤ sent t ∧ sent t ≤ received t + 50) ∧
  (∃ traffic,
     net (fetch_models_with network max_workers project_id region publisher w0).2
     = net w0 ++ traffic ∧
     ∀ t, t `prefix_of` traffic →
          received t ≤ sent t ∧ sent t ≤ received t + max_workers) ∧
  same_result
    (fetch_models_with network max_workers project_id region publisher w0).1
    (fetch_models network project_id region publisher w).1.
Proof.
  intros Hw. split_and!.
  - apply (fetch_models_with_traffic network 50). lia.
  - apply fetch_models_with_traffic. lia.
  - apply fetch_models_with_same_result; lia.
Qed.

Lemma concurrency_bound_witness :
  (∃ traffic,
     net (fetch_models scenario_network "my-project" "europe-west4" "google"
            (fresh_world last_first)).2
     = net (fresh_world last_first) ++ traffic ∧
     ∀ t, t `prefix_of` traffic → received t ≤ sent t ∧ sent t ≤ received t + 50) ∧
  (∃ traffic,
     net (fetch_models_with scenario_network 1 "my-project" "europe-west4" "google"
            (fresh_world last_first)).2
     = net (fresh_world last_first) ++ traffic ∧
     ∀ t, t `prefix_of` traffic → received t ≤ sent t ∧ sent t ≤ received t + 1) ∧
  same_result
    (fetch_models_with scenario_network 1 "my-project" "europe-west4" "google"
       (fresh_world last_first)).1
    (fetch_models scenario_network "my-project" "europe-west4" "google"
       (fresh_world last_first)).1.
Proof.
  apply (concurrency_bound scenario_network 1 "my-project" "europe-west4" "google"
           (fresh_world last_first) (fresh_world last_first)).
  lia.
Defined.

(** C9, default region.  With no [--region] argument and no [REGION] in
    [os.environ] when [main] reads it (that is, once [load_dotenv] has run),
    the region of line 191 is "us-central1"; the run sends no
    [get_publisher_model] request; and, when the project is determined and
    the master catalogue lists [all_models], the run ends normally with the
    listing as its only call and with the whole of [all_models] printed: the
    header and a line per model, or nothing when the catalogue is empty. *)
Theorem default_region_is_master network dotenv args w :
  region args = None →
  environ (load_dotenv dotenv w).2 !! "REGION" = None →
  let w1 := (load_dotenv dotenv w).2 in
  let r := main network dotenv (Parsed args) w in
  or_else (region args) (environ w1 !! "REGION") "us-central1" = "us-central1" ∧
  sent (net r.2) = sent (net w) ∧
  ∀ project_id all_models,
    (get_project_id (project args) w1).1 = Return project_id →
    rpc_list_publisher_models network discovery_endpoint
      ("publishers/" +:+ publisher args) = Return all_models →
    r.1 = Return () ∧
    net r.2 = net w ++ [ListRequest discovery_endpoint ("publishers/" +:+ publisher args)] ∧
    stdout r.2 = stdout w ++ rendering "us-central1" (publisher args) all_models.
Proof.
  intros Hargs Henv w1 r.
  assert (or_else (region args) (environ w1 !! "REGION") "us-central1" = "us-central1")
    as Hregion.
  { subst w1. by rewrite Hargs, Henv. }
  split; [done|].
  assert (r = main network dotenv (Parsed args) w) as Hr by done. clearbody r.
  rewrite main_spec in Hr. simpl in Hr. fold w1 in Hr.
  rewrite get_project_id_spec in Hr. rewrite get_project_id_spec.
  assert (∀ project_id,
            r = match fetch_models network project_id "us-central1" (publisher args) w1 with
                | (Raise e, w3) => (Raise e, w3)
                | (Return models, w3) =>
                    (Return (),
                     mkWorld (environ w3) (net w3)
                       (stderr w3 ++
                        [match models with
                         | [] => "WARNING: No models found available in " +:+ "us-central1" +:+ "."
                         | _ :: _ =>
                             "INFO: Successfully retrieved " +:+ pretty (length models)
                             +:+ " models available in " +:+ "us-central1" +:+ "."
                         end])
                       (stdout w3 ++ rendering "us-central1" (publisher args) models)
                       (sched w3))
                end →
            sent (net r.2) = sent (net w) ∧
            ∀ all_models,
              rpc_list_publisher_models network discovery_endpoint
                ("publishers/" +:+ publisher args) = Return all_models →
              r.1 = Return () ∧
              net r.2 = net w ++ [ListRequest discovery_endpoint ("publishers/" +:+ publisher args)] ∧
              stdout r.2 = stdout w ++ rendering "us-central1" (publisher args) all_models)
    as Hfetch.
  { intros project_id ->. unfold fetch_models.
    destruct (rpc_list_publisher_models network discovery_endpoint
                ("publishers/" +:+ publisher args)) as [all_models|e] eqn:Hlist.
    - rewrite (fetch_models_with_master _ _ _ _ all_models) by done. simpl.
      rewrite sent_app. simpl. split; [lia|]. by intros ? [= <-].
    - rewrite (fetch_models_with_discovery_failure _ _ _ _ _ e) by done. simpl.
      rewrite sent_app. simpl. split; [lia|]. done. }
  destruct (truthy (project args)) as [p|]; simpl in *.
  - rewrite Hregion in Hr. destruct (Hfetch p Hr) as [Hsent Hrest].
    split; [done|]. intros project_id all_models _. apply Hrest.
  - destruct (truthy ((environ w ∪ dotenv) !! "GOOGLE_CLOUD_PROJECT")) as [p|];
      simpl in *.
    + rewrite Hregion in Hr. destruct (Hfetch p Hr) as [Hsent Hrest].
      split; [done|]. intros project_id all_models _. apply Hrest.
    + subst r. simpl. split; [done|]. done.
Qed.

Lemma default_region_is_master_witness :
  let args := mkNamespace (Some "my-project") None "google" in
  let r := main scenario_network ∅ (Parsed args) (fresh_world []) in
  or_else (region args) (environ (load_dotenv ∅ (fresh_world [])).2 !! "REGION")
    "us-central1" = "us-central1" ∧
  sent (net r.2) = 0 ∧
  r.1 = Return () ∧
  net r.2 = [ListRequest discovery_endpoint "publishers/google"] ∧
  stdout r.2 = ["# Models available in us-central1 for publisher 'google'";
                "- publishers/google/models/a:predict";
                "- publishers/google/models/b:predict";
                "- publishers/google/models/c:predict"].
Proof.
  assert (environ (load_dotenv ∅ (fresh_world [])).2 !! "REGION" = None) as Henv
    by (vm_compute; reflexivity).
  destruct (default_region_is_master scenario_network ∅
              (mkNamespace (Some "my-project") None "google") (fresh_world [])
              eq_refl Henv) as (Hregion & Hsent & Hrun).
  destruct (Hrun "my-project" [model_a; model_b; model_c] eq_refl eq_refl)
    as (Hout & Hnet & Hstdout).
  repeat split; assumption.
Defined.

(** C10, precedence of the project.  A non-empty [--project] argument is
    returned as it is, whatever the environment.  Without the argument, a
    non-empty [GOOGLE_CLOUD_PROJECT] is returned.  Without either,
    [get_project_id] logs an error and raises [SystemExit(1)]; [main] then
    ends with that exception, so the process exits with status 1, with no
    call on the wire and nothing printed. *)
Theorem project_id_precedence :
  (∀ p w, p ≠ "" → get_project_id (Some p) w = (Return p, w)) ∧
  (∀ v w,
     environ w !! "GOOGLE_CLOUD_PROJECT" = Some v → v ≠ "" →
     get_project_id None w = (Return v, w)) ∧
  (∀ w,
     environ w !! "GOOGLE_CLOUD_PROJECT" = None →
     get_project_id None w =
     (Raise (SystemExit 1),
      mkWorld (environ w) (net w)
        (stderr w ++ ["ERROR: Could not determine Project ID. Set GOOGLE_CLOUD_PROJECT env var or use --project."])
        (stdout w) (sched w))) ∧
  (∀ network dotenv args w,
     project args = None →
     environ (load_dotenv dotenv w).2 !! "GOOGLE_CLOUD_PROJECT" = None →
     let r := main network dotenv (Parsed args) w in
     r.1 = Raise (SystemExit 1) ∧ exit_status r.1 = 1%Z ∧
     net r.2 = net w ∧ stdout r.2 = stdout w).
Proof.
  split_and!.
  - intros p w Hp. rewrite get_project_id_spec. simpl.
    by rewrite bool_decide_false.
  - intros v w Henv Hv. rewrite get_project_id_spec, Henv. simpl.
    by rewrite bool_decide_false.
  - intros w Henv. by rewrite get_project_id_spec, Henv.
  - intros network dotenv args w Hargs Henv r. subst r.
    rewrite main_spec. simpl in *. rewrite get_project_id_spec, Hargs. simpl.
    by rewrite Henv.
Qed.

Lemma project_id_precedence_witness :
  get_project_id (Some "from-argument")
    (mkWorld {[ "GOOGLE_CLOUD_PROJECT" := "from-environment" ]} [] [] [] [])
  = (Return "from-argument",
     mkWorld {[ "GOOGLE_CLOUD_PROJECT" := "from-environment" ]} [] [] [] []) ∧
  get_project_id None
    (mkWorld {[ "GOOGLE_CLOUD_PROJECT" := "from-environment" ]} [] [] [] [])
  = (Return "from-environment",
     mkWorld {[ "GOOGLE_CLOUD_PROJECT" := "from-environment" ]} [] [] [] []) ∧
  let r := main scenario_network ∅ (Parsed (mkNamespace None None "google")) (fresh_world []) in
  r.1 = Raise (SystemExit 1) ∧ exit_status r.1 = 1%Z ∧ net r.2 = [] ∧ stdout r.2 = [].
Proof.
  destruct project_id_precedence as (Harg & Henv & _ & Hmain).
  split; [|split].
  - apply Harg. discriminate.
  - apply Henv; [reflexivity | discriminate].
  - apply (Hmain scenario_network ∅ (mkNamespace None None "google") (fresh_world []));
      reflexivity.
Defined.

(** * Further properties of the code *)

(** ** The names on the wire *)

Lemma requested_app t1 t2 : requested (t1 ++ t2) = requested t1 ++ requested t2.
Proof. induction t1 as [|[] t1 IH]; simpl; by rewrite ?IH. Qed.

Lemma responded_app t1 t2 : responded (t1 ++ t2) = responded t1 ++ responded t2.
Proof. induction t1 as [|[] t1 IH]; simpl; by rewrite ?IH. Qed.

Lemma listings_app t1 t2 : listings (t1 ++ t2) = listings t1 ++ listings t2.
Proof. induction t1 as [|[] t1 IH]; simpl; by rewrite ?IH. Qed.

Lemma length_requested t : length (requested t) = sent t.
Proof. induction t as [|[] t IH]; simpl; by rewrite ?IH. Qed.

Lemma length_responded t : length (responded t) = received t.
Proof. induction t as [|[] t IH]; simpl; by rewrite ?IH. Qed.

Lemma submitted_names all_models : (submitted all_models).*2 = name <$> all_models.
Proof.
  apply list_eq. intros i. unfold submitted.
  rewrite !list_lookup_fmap, list_lookup_imap. by destruct (all_models !! i).
Qed.

Section PoolNames.

Context (network : Network) (max_workers : nat) (client : ModelGardenServiceClient).
Context (all_models : list PublisherModel).

Lemma worker_start_names p :
  names_inv client all_models p →
  names_inv client all_models (worker_start max_workers p).
Proof.
  destruct p as [[|item rest] tk r rt f y t]; unfold worker_start, names_inv;
    cbn [queue taken running wire]; [done|].
  case_decide; cbn [queue taken running wire]; [|done].
  intros (Hreq & Hresp & Hpre & Hwire). split_and!; [|done..].
  rewrite <-Hreq, fmap_app, !fmap_cons, fmap_nil. solve_Permutation.
Qed.

Lemma worker_send_names k p :
  names_inv client all_models p →
  names_inv client all_models (worker_send client k p).
Proof.
  destruct p as [q tk r rt f y t]; unfold worker_send, names_inv;
    cbn [queue taken running wire].
  destruct (tk !! _) as [item|] eqn:Hk; cbn [queue taken running wire]; [|done].
  intros (Hreq & Hresp & Hpre & Hwire).
  pose proof (delete_Permutation tk _ _ Hk) as Htk.
  set (tk' := delete _ tk) in *. clearbody tk'. clear Hk.
  assert (requested [GetRequest (api_endpoint client) item.2] = [item.2])
    as Hone by done.
  assert (responded [GetRequest (api_endpoint client) item.2] = [])
    as Hnone by done.
  rewrite requested_app, responded_app, Hone, Hnone, app_nil_r. split_and!.
  - rewrite <-Hreq, Htk, fmap_cons. solve_Permutation.
  - rewrite <-Hresp, fmap_app, fmap_cons, fmap_nil. solve_Permutation.
  - intros t' [Ht'| ->]%prefix_snoc_cases; [by apply Hpre|].
    rewrite requested_app, responded_app, Hone, Hnone, app_nil_r.
    apply submseteq_inserts_r, Hpre. done.
  - apply Forall_app. split; [done|]. apply Forall_singleton. eauto.
Qed.

Lemma worker_receive_names k p :
  names_inv client all_models p →
  names_inv client all_models (worker_receive network client k p).
Proof.
  destruct p as [q tk r rt f y t]; unfold worker_receive, names_inv;
    cbn [queue taken running wire].
  destruct (r !! _) as [item|] eqn:Hk; cbn [queue taken running wire]; [|done].
  intros (Hreq & Hresp & Hpre & Hwire).
  pose proof (delete_Permutation r _ _ Hk) as Hr.
  set (r' := delete _ r) in *. clearbody r'. clear Hk.
  assert (requested [GetResponse (api_endpoint client) item.2] = [])
    as Hnone by done.
  assert (responded [GetResponse (api_endpoint client) item.2] = [item.2])
    as Hone by done.
  rewrite Hr, fmap_cons in Hresp.
  rewrite requested_app, responded_app, Hone, Hnone, app_nil_r. split_and!.
  - done.
  - rewrite <-Hresp. solve_Permutation.
  - intros t' [Ht'| ->]%prefix_snoc_cases; [by apply Hpre|].
    rewrite requested_app, responded_app, Hone, Hnone, app_nil_r.
    rewrite <-Hresp. apply submseteq_app; [done|].
    apply submseteq_skip, submseteq_nil_l.
  - apply Forall_app. split; [done|]. apply Forall_singleton. eauto.
Qed.

Lemma worker_finish_names k p :
  names_inv client all_models p →
  names_inv client all_models (worker_finish k p).
Proof.
  destruct p as [q tk r rt f y t]; unfold worker_finish, names_inv;
    cbn [queue taken running returned wire].
  by destruct (rt !! _).
Qed.

Lemma as_completed_call_names order p :
  names_inv client all_models p →
  names_inv client all_models (as_completed_call order p).
Proof. destruct p as [q tk r rt f [ys|] t]; done. Qed.

Lemma pool_step_names p d :
  names_inv client all_models p →
  names_inv client all_models (pool_step network max_workers client p d).
Proof.
  destruct d; simpl.
  - apply worker_start_names.
  - apply worker_send_names.
  - apply worker_receive_names.
  - apply worker_finish_names.
  - apply as_completed_call_names.
Qed.

(** Once the pool is at rest: the requests went out for the names of the
    discovery list, each as many times as it is in the list, and so did the
    responses; no response came before its request; the wire carries
    nothing but these fetches. *)
Lemma run_pool_names decisions :
  0 < max_workers →
  let p := run_pool network max_workers client decisions
             (mkPool (submitted all_models) [] [] [] [] None []) in
  requested (wire p) ≡ₚ name <$> all_models ∧
  responded (wire p) ≡ₚ name <$> all_models ∧
  (∀ t, t `prefix_of` wire p → responded t ⊆+ requested t) ∧
  listings (wire p) = [] ∧
  Forall (λ ev, ∃ model_name,
            ev = GetRequest (api_endpoint client) model_name ∨
            ev = GetResponse (api_endpoint client) model_name) (wire p).
Proof.
  intros Hw p.
  destruct (run_pool_spec network max_workers client decisions all_models Hw)
    as (Hq & Hr & _). fold p in Hq, Hr.
  destruct (run_pool_completed network max_workers client decisions all_models Hw)
    as (Htk & _). fold p in Htk.
  assert (names_inv client all_models p) as (Hreq & Hresp & Hpre & Hwire).
  { apply (foldl_invariant (names_inv client all_models)); [apply pool_step_names|].
    unfold names_inv; simpl. rewrite submitted_names. split_and!; try done.
    intros t ->%prefix_nil_inv. done. }
  rewrite Hq, Htk in Hreq. rewrite Hr in Hresp. simpl in Hreq, Hresp.
  rewrite app_nil_r in Hreq, Hresp.
  split_and!; try done.
  - by rewrite Hresp.
  - clear -Hwire. induction Hwire as [|ev t (nm & [-> | ->]) _ IH]; simpl; done.
Qed.

End PoolNames.

Section TrafficFacts.

Context (network : Network).

(** The traffic of [fetch_models_with], path by path. *)
Lemma fetch_models_with_wire max_workers project_id region publisher w :
  0 < max_workers →
  ∃ probes,
    net (fetch_models_with network max_workers project_id region publisher w).2
    = net w ++ ListRequest discovery_endpoint ("publishers/" +:+ publisher) :: probes ∧
    listings probes = [] ∧
    Forall (addressed_to region) probes.
Proof.
  intros Hw.
  destruct (rpc_list_publisher_models network discovery_endpoint
              ("publishers/" +:+ publisher)) as [all_models|e] eqn:Hlist.
  - destruct (decide (region = "us-central1")) as [->|Hregion].
    + rewrite (fetch_models_with_master _ _ _ _ all_models) by done. simpl.
      by exists [].
    + destruct (fetch_models_with_region network max_workers project_id region
                  publisher all_models w Hw Hregion Hlist) as (_ & _ & -> & _).
      destruct (run_pool_names network max_workers (region_client region)
                  all_models (sched w) Hw) as (_ & _ & _ & Hno & Hwire).
      eexists. split; [done|]. split; [done|].
      eapply Forall_impl; [exact Hwire|]. by intros ev (nm & [-> | ->]).
  - rewrite (fetch_models_with_discovery_failure _ _ _ _ _ e) by done. simpl.
    by exists [].
Qed.

End TrafficFacts.

(** X1, one listing, then fetches at the target region.  Whatever the
    region, the publisher, the service and the decisions of the pool, the
    first call [fetch_models] puts on the wire is a listing at the master
    endpoint for "publishers/" followed by the publisher; it is the only
    listing, and every call after it is a fetch at the endpoint of the
    target region. *)
Theorem fetch_models_lists_once_then_probes_region network project_id region publisher w :
  ∃ probes,
    net (fetch_models network project_id region publisher w).2
    = net w ++ ListRequest "us-central1-aiplatform.googleapis.com"
                 ("publishers/" +:+ publisher) :: probes ∧
    listings probes = [] ∧
    Forall (addressed_to region) probes.
Proof. apply (fetch_models_with_wire network 50). lia. Qed.

(** X2, one probe per discovered model.  For a target region other than the
    master region and a discovery list [all_models], the requests
    [fetch_models] sends are for the names of [all_models], each as many
    times as it is in the list, in some order; the responses that come back
    are for the same names, in some order; and at no moment has a response
    come back whose request had not gone out: no model is skipped and none
    is tried twice. *)
Theorem fetch_models_probes_each_model_once network project_id region publisher all_models w :
  region ≠ "us-central1" →
  rpc_list_publisher_models network discovery_endpoint ("publishers/" +:+ publisher)
  = Return all_models →
  ∃ probes,
    net (fetch_models network project_id region publisher w).2
    = net w ++ ListRequest discovery_endpoint ("publishers/" +:+ publisher) :: probes ∧
    requested probes ≡ₚ name <$> all_models ∧
    responded probes ≡ₚ name <$> all_models ∧
    ∀ t, t `prefix_of` probes → responded t ⊆+ requested t.
Proof.
  intros Hregion Hlist.
  destruct (fetch_models_with_region network 50 project_id region publisher
              all_models w ltac:(lia) Hregion Hlist) as (_ & _ & Hnet & _).
  destruct (run_pool_names network 50 (region_client region) all_models (sched w)
              ltac:(lia)) as (Hreq & Hresp & Hpre & _).
  eexists. split; [exact Hnet|]. done.
Qed.

Lemma fetch_models_probes_each_model_once_witness :
  ∃ probes,
    net (fetch_models scenario_network "my-project" "europe-west4" "google"
           (fresh_world set_order_b_c_a)).2
    = net (fresh_world set_order_b_c_a)
      ++ ListRequest discovery_endpoint ("publishers/" +:+ "google") :: probes ∧
    requested probes ≡ₚ name <$> [model_a; model_b; model_c] ∧
    responded probes ≡ₚ name <$> [model_a; model_b; model_c] ∧
    ∀ t, t `prefix_of` probes → responded t ⊆+ requested t.
Proof.
  apply (fetch_models_probes_each_model_once scenario_network "my-project"
           "europe-west4" "google" [model_a; model_b; model_c]
           (fresh_world set_order_b_c_a)).
  - discriminate.
  - reflexivity.
Defined.

(** X3, the order of the result is not that of the responses.  With every
    model found, three runs whose calls go out and come back in the same
    order, a then b then c, and which log the same lines: the result is
    [a; b; c] when the futures are set in that order and [as_completed]
    yields them so; it is [b; c; a] when the set of [as_completed] holds the
    finished futures in that order; and it is [b; c; a] again when the
    workers set their futures in that order, the main thread waiting in
    [as_completed]. *)
Theorem fetch_models_result_order_varies :
  let run decisions :=
    fetch_models permissive_network "my-project" "europe-west4" "google"
      (fresh_world decisions) in
  (run discovery_order).1 = Return [model_a; model_b; model_c] ∧
  (run set_order_b_c_a).1 = Return [model_b; model_c; model_a] ∧
  (run futures_set_b_c_a).1 = Return [model_b; model_c; model_a] ∧
  responded (net (run discovery_order).2) = name <$> [model_a; model_b; model_c] ∧
  net (run set_order_b_c_a).2 = net (run discovery_order).2 ∧
  net (run futures_set_b_c_a).2 = net (run discovery_order).2 ∧
  stderr (run set_order_b_c_a).2 = stderr (run discovery_order).2 ∧
  stderr (run futures_set_b_c_a).2 = stderr (run discovery_order).2.
Proof. vm_compute. done. Qed.

(** ** Standard output and the log *)

Section LogFacts.

Context (network : Network).

(** Every path of [fetch_models_with] leaves standard output and the
    environment as they were. *)
Lemma fetch_models_with_quiet max_workers project_id region publisher w :
  0 < max_workers →
  stdout (fetch_models_with network max_workers project_id region publisher w).2
  = stdout w ∧
  environ (fetch_models_with network max_workers project_id region publisher w).2
  = environ w.
Proof.
  intros Hw.
  destruct (rpc_list_publisher_models network discovery_endpoint
              ("publishers/" +:+ publisher)) as [all_models|e] eqn:Hlist.
  - destruct (decide (region = "us-central1")) as [->|Hregion].
    + by rewrite (fetch_models_with_master _ _ _ _ all_models).
    + by destruct (fetch_models_with_region network max_workers project_id region
                     publisher all_models w Hw Hregion Hlist) as (_ & -> & _ & ->).
  - by rewrite (fetch_models_with_discovery_failure _ _ _ _ _ e).
Qed.

(** A loop that meets no exception logs one progress line for every count
    that is a multiple of 20. *)
Lemma as_completed_loop_stderr all_models total completed count acc w :
  Forall (λ c, is_Some (all_models !! c.1)) completed →
  first_raise completed = None →
  stderr (as_completed_loop (map_seq 0 all_models) total completed count acc w).2
  = stderr w
    ++ (progress_line total
          <$> filter (λ k, k mod 20 = 0) (seq (S count) (length completed))).
Proof.
  revert count acc w.
  induction completed as [|[future r] rest IH]; intros count acc w Hv Hfirst.
  - simpl. by rewrite app_nil_r.
  - apply Forall_cons in Hv as [[model Hmodel] Hv]. simpl in Hmodel.
    destruct r as [b|e]; [|done]. simpl in Hfirst.
    cbn [as_completed_loop length seq]. rewrite filter_cons.
    unfold_M. rewrite lookup_map_seq_0, Hmodel.
    case_bool_decide as Hmod.
    + rewrite decide_True by done. rewrite IH by done. simpl.
      by rewrite <-(assoc (++)).
    + rewrite decide_False by done. by rewrite IH.
Qed.

Lemma length_progress_log total : length (progress_log total) = total / 20.
Proof.
  unfold progress_log. rewrite length_fmap.
  induction total as [|n IH]; [done|].
  rewrite seq_S, filter_app, length_app, IH. cbn [Nat.add].
  rewrite filter_cons, filter_nil.
  pose proof (Nat.div_mod_eq n 20). pose proof (Nat.div_mod_eq (S n) 20).
  pose proof (Nat.mod_upper_bound n 20). pose proof (Nat.mod_upper_bound (S n) 20).
  case_decide; cbn [length]; lia.
Qed.

(** The log of a call for a target region that returns a list. *)
Lemma fetch_models_with_region_stderr max_workers project_id region publisher
    all_models w l w' :
  0 < max_workers →
  region ≠ "us-central1" →
  rpc_list_publisher_models network discovery_endpoint ("publishers/" +:+ publisher)
  = Return all_models →
  fetch_models_with network max_workers project_id region publisher w = (Return l, w') →
  stderr w'
  = stderr w
    ++ ["INFO: Discovery: Fetching full catalog from us-central1-aiplatform.googleapis.com...";
        "INFO: Discovery: Found " +:+ pretty (length all_models) +:+ " models in Master Catalog.";
        "INFO: Filtering: Verifying availability in " +:+ region +:+ " for "
        +:+ pretty (length all_models) +:+ " models..."]
    ++ progress_log (length all_models).
Proof.
  intros Hw Hregion Hlist Hrun.
  destruct (fetch_models_with_region network max_workers project_id region publisher
              all_models w Hw Hregion Hlist) as (Hout & _).
  destruct (run_pool_completed network max_workers (region_client region)
              (sched w) all_models Hw) as (_ & _ & _ & Hfin).
  rewrite Hrun in Hout. simpl in Hout.
  set (p := run_pool _ _ _ _ _) in *.
  assert (first_raise (completed_futures p) = None) as Hfirst.
  { by destruct (first_raise (completed_futures p)). }
  assert (Forall (λ c, is_Some (all_models !! c.1)) (completed_futures p))
    as Hvalid.
  { apply Forall_forall. intros c Hc. rewrite Hfin in Hc.
    apply elem_of_settled_submitted in Hc as (model & -> & _). eauto. }
  assert (length (completed_futures p) = length all_models) as Hlen.
  { rewrite Hfin, length_fmap. unfold submitted. by rewrite length_imap. }
  assert (w' = (fetch_models_with network max_workers project_id region publisher w).2)
    as -> by by rewrite Hrun.
  unfold fetch_models_with, try_except_Exception, list_publisher_models.
  unfold_M. simpl. rewrite Hlist. simpl. rewrite bool_decide_false by done.
  unfold verify_availability. rewrite decide_False by lia.
  unfold executor_run. unfold_M. simpl. fold (region_client region).
  fold (submitted all_models). fold p. fold (completed_futures p).
  rewrite as_completed_loop_stderr by done. simpl.
  rewrite Hlen. unfold progress_log. by rewrite <-!(assoc (++)).
Qed.

End LogFacts.

(** X4, standard output stays clean.  Neither [get_project_id] nor
    [fetch_models] writes to standard output or changes the environment, on
    any path: what they report goes to the log, so that only [main] decides
    what is printed. *)
Theorem stdout_stays_clean network arg_project project_id region publisher w :
  stdout (get_project_id arg_project w).2 = stdout w ∧
  environ (get_project_id arg_project w).2 = environ w ∧
  stdout (fetch_models network project_id region publisher w).2 = stdout w ∧
  environ (fetch_models network project_id region publisher w).2 = environ w.
Proof.
  rewrite get_project_id_spec.
  destruct (fetch_models_with_quiet network 50 project_id region publisher w
              ltac:(lia)) as [Hout Henv].
  split_and!; try done;
    destruct (truthy arg_project); try done;
    by destruct (truthy (environ w !! "GOOGLE_CLOUD_PROJECT")).
Qed.

(** X5, the progress log.  When [fetch_models] returns a list for a target
    region other than the master region, its log is the three lines that
    announce discovery and filtering followed by one progress line for every
    multiple of 20 up to the number [n] of discovered models, in increasing
    order: [n / 20] lines, the same whatever the order in which the probes
    complete. *)
Theorem fetch_models_progress_log network project_id region publisher all_models w l w' :
  region ≠ "us-central1" →
  rpc_list_publisher_models network discovery_endpoint ("publishers/" +:+ publisher)
  = Return all_models →
  fetch_models network project_id region publisher w = (Return l, w') →
  stderr w'
  = stderr w
    ++ ["INFO: Discovery: Fetching full catalog from us-central1-aiplatform.googleapis.com...";
        "INFO: Discovery: Found " +:+ pretty (length all_models) +:+ " models in Master Catalog.";
        "INFO: Filtering: Verifying availability in " +:+ region +:+ " for "
        +:+ pretty (length all_models) +:+ " models..."]
    ++ progress_log (length all_models) ∧
  length (progress_log (length all_models)) = length all_models / 20.
Proof.
  intros Hregion Hlist Hrun. split; [|apply length_progress_log].
  by apply (fetch_models_with_region_stderr network 50 project_id region publisher
              all_models w l w' ltac:(lia)).
Qed.

Example progress_log_50 :
  progress_log 50 = ["INFO: Checked 20/50 models..."; "INFO: Checked 40/50 models..."].
Proof. vm_compute. reflexivity. Qed.

Lemma fetch_models_progress_log_witness :
  stderr (fetch_models fifty_network "my-project" "europe-west4" "google"
            (fresh_world [])).2
  = stderr (fresh_world [])
    ++ ["INFO: Discovery: Fetching full catalog from us-central1-aiplatform.googleapis.com...";
        "INFO: Discovery: Found " +:+ pretty (length fifty_models) +:+ " models in Master Catalog.";
        "INFO: Filtering: Verifying availability in " +:+ "europe-west4" +:+ " for "
        +:+ pretty (length fifty_models) +:+ " models..."]
    ++ progress_log (length fifty_models) ∧
  length (progress_log (length fifty_models)) = length fifty_models / 20.
Proof.
  apply (fetch_models_progress_log fifty_network "my-project" "europe-west4" "google"
           fifty_models (fresh_world []) []
           (fetch_models fifty_network "my-project" "europe-west4" "google"
              (fresh_world [])).2).
  - discriminate.
  - reflexivity.
  - vm_compute. reflexivity.
Defined.

(** ** [main], end to end *)

Section MainFacts.

Context (network : Network).

(** A list [fetch_models_with] returns is a sub-multiset of the discovery
    list. *)
Lemma fetch_models_with_submseteq max_workers project_id region publisher w l w' :
  0 < max_workers →
  fetch_models_with network max_workers project_id region publisher w = (Return l, w') →
  ∃ all_models,
    rpc_list_publisher_models network discovery_endpoint ("publishers/" +:+ publisher)
    = Return all_models ∧
    l ⊆+ all_models.
Proof.
  intros Hw Hrun.
  destruct (rpc_list_publisher_models network discovery_endpoint
              ("publishers/" +:+ publisher)) as [all_models|e] eqn:Hlist.
  - exists all_models. split; [done|].
    destruct (decide (region = "us-central1")) as [->|Hregion].
    + rewrite (fetch_models_with_master _ _ _ _ all_models) in Hrun by done.
      by simplify_eq.
    + pose proof (fetch_models_with_outcome network max_workers project_id region
                    publisher all_models w Hw Hregion Hlist) as H.
      rewrite Hrun in H. simpl in H. destruct H as [-> _].
      apply sublist_submseteq, sublist_filter.
  - rewrite (fetch_models_with_discovery_failure _ _ _ _ _ e) in Hrun by done.
    by simplify_eq.
Qed.

(** Once the project is determined, [main] is [fetch_models] for the region
    of line 191 followed by the printing. *)
Lemma main_after_project dotenv args w project_id :
  let w1 := (load_dotenv dotenv w).2 in
  let target := or_else (region args) (environ w1 !! "REGION") "us-central1" in
  (get_project_id (project args) w1).1 = Return project_id →
  main network dotenv (Parsed args) w =
  match fetch_models network project_id target (publisher args) w1 with
  | (Raise e, w3) => (Raise e, w3)
  | (Return models, w3) =>
      (Return (),
       mkWorld (environ w3) (net w3)
         (stderr w3 ++
          [match models with
           | [] => "WARNING: No models found available in " +:+ target +:+ "."
           | _ :: _ =>
               "INFO: Successfully retrieved " +:+ pretty (length models)
               +:+ " models available in " +:+ target +:+ "."
           end])
         (stdout w3 ++ rendering target (publisher args) models)
         (sched w3))
  end.
Proof.
  intros w1 target Hproject. rewrite main_spec. simpl. fold w1.
  rewrite get_project_id_spec in Hproject |- *.
  destruct (truthy (project args)) as [p|]; simpl in *.
  - simplify_eq. subst w1 target. by destruct (fetch_models _ _ _ _ _) as [[?|?] ?].
  - destruct (truthy (_ !! "GOOGLE_CLOUD_PROJECT")) as [p|]; simpl in *;
      [|done].
    simplify_eq. subst w1 target. by destruct (fetch_models _ _ _ _ _) as [[?|?] ?].
Qed.

(** Without a project, [main] stops before anything else. *)
Lemma main_without_project_spec dotenv args w :
  let w1 := (load_dotenv dotenv w).2 in
  (∀ project_id, (get_project_id (project args) w1).1 ≠ Return project_id) →
  (main network dotenv (Parsed args) w).1 = Raise (SystemExit 1) ∧
  net (main network dotenv (Parsed args) w).2 = net w ∧
  stdout (main network dotenv (Parsed args) w).2 = stdout w.
Proof.
  intros w1 Hproject. rewrite main_spec. simpl. fold w1.
  rewrite get_project_id_spec in Hproject |- *.
  destruct (truthy (project args)) as [p|]; simpl in *.
  - by destruct (Hproject p).
  - destruct (truthy (_ !! "GOOGLE_CLOUD_PROJECT")) as [p|]; simpl in *.
    + by destruct (Hproject p).
    + done.
Qed.

Lemma get_project_id_decided arg_project w :
  (∃ project_id, (get_project_id arg_project w).1 = Return project_id) ∨
  (∀ project_id, (get_project_id arg_project w).1 ≠ Return project_id).
Proof. destruct (get_project_id arg_project w).1; eauto. Qed.

End MainFacts.


(** X7, a run that confirms nothing.  When the project is determined and
    the master catalogue is empty, or the target region is not the master
    region and every probe answers [False], [main] prints nothing (not even
    the header), ends its log with a warning, and returns: the process exits
    with status 0. *)
Theorem main_nothing_confirmed network dotenv args w project_id all_models :
  let w1 := (load_dotenv dotenv w).2 in
  let target := or_else (region args) (environ w1 !! "REGION") "us-central1" in
  (get_project_id (project args) w1).1 = Return project_id →
  rpc_list_publisher_models network discovery_endpoint
    ("publishers/" +:+ publisher args) = Return all_models →
  all_models = [] ∨
  (target ≠ "us-central1" ∧
   ∀ model, model ∈ all_models →
     check_model_availability network (region_client target) (name model)
     = Return false) →
  let r := main network dotenv (Parsed args) w in
  r.1 = Return () ∧
  exit_status r.1 = 0%Z ∧
  stdout r.2 = stdout w ∧
  last (stderr r.2) = Some ("WARNING: No models found available in " +:+ target +:+ ".").
Proof.
  intros w1 target Hproject Hlist Hnone r. subst r.
  rewrite (main_after_project network dotenv args w project_id Hproject).
  fold w1 target.
  pose proof (fetch_models_with_quiet network 50 project_id target (publisher args)
                w1 ltac:(lia)) as [Hout _].
  assert (∃ w3, fetch_models network project_id target (publisher args) w1
                = (Return [], w3)) as [w3 Hrun].
  { unfold fetch_models. destruct (decide (target = "us-central1")) as [Heq|Hne].
    - destruct Hnone as [->|[? _]]; [|done]. rewrite Heq.
      rewrite (fetch_models_with_master _ _ _ _ []) by done. eauto.
    - assert (fails_with_errors_only network (region_client target) all_models)
        as Herr.
      { intros model e Hin Hget. destruct Hnone as [->|[_ Hfalse]].
        - by apply elem_of_nil in Hin.
        - specialize (Hfalse model Hin).
          rewrite check_model_availability_spec, Hget in Hfalse.
          by destruct (isinstance_Exception e). }
      destruct (fetch_models_with_returns network 50 project_id target
                  (publisher args) all_models w1 ltac:(lia) Hne Hlist Herr)
        as (l & w3 & Hrun & Hl).
      exists w3. rewrite Hrun. f_equal. f_equal.
      destruct l as [|model l]; [done|]. exfalso.
      assert (model ∈ filter (confirmed network (region_client target)) all_models)
        as [Hconf Hin]%list_elem_of_filter by (rewrite <-Hl; by left).
      destruct Hnone as [->|[_ Hfalse]]; [by apply elem_of_nil in Hin|].
      specialize (Hfalse model Hin). unfold confirmed in Hconf. congruence. }
  unfold fetch_models in *. rewrite Hrun in Hout |- *. simpl in *.
  rewrite app_nil_r, last_snoc. done.
Qed.

Lemma main_nothing_confirmed_witness :
  let args := mkNamespace (Some "my-project") (Some "europe-west4") "google" in
  let r := main fifty_network ∅ (Parsed args) (fresh_world []) in
  r.1 = Return () ∧
  exit_status r.1 = 0%Z ∧
  stdout r.2 = [] ∧
  last (stderr r.2) = Some "WARNING: No models found available in europe-west4.".
Proof.
  apply (main_nothing_confirmed fifty_network ∅
           (mkNamespace (Some "my-project") (Some "europe-west4") "google")
           (fresh_world []) "my-project" fifty_models).
  - reflexivity.
  - reflexivity.
  - right. split; [discriminate|]. intros model _. reflexivity.
Defined.

(** X8, the exit status of a run.  When, the command line being accepted,
    a failure of the listing is an error and, for a target region other than
    the master region, so is every failure of a probe, the process exits
    with status 0, 1 or 2: with status 2 exactly when [argparse] rejects the
    command line; and with status 0 exactly when the command line asks for
    help, or it is accepted, the project is determined and the listing of
    the master catalogue succeeds.  Finding no model is not a failure, and
    no probe can fail the run. *)
Theorem main_exit_status network dotenv argv w :
  let w1 := (load_dotenv dotenv w).2 in
  (∀ args,
     argv = Parsed args →
     let target := or_else (region args) (environ w1 !! "REGION") "us-central1" in
     (∀ e, rpc_list_publisher_models network discovery_endpoint
             ("publishers/" +:+ publisher args) = Raise e →
           isinstance_Exception e = true) ∧
     (∀ all_models,
        target ≠ "us-central1" →
        rpc_list_publisher_models network discovery_endpoint
          ("publishers/" +:+ publisher args) = Return all_models →
        fails_with_errors_only network (region_client target) all_models)) →
  let r := main network dotenv argv w in
  (exit_status r.1 = 0%Z ∨ exit_status r.1 = 1%Z ∨ exit_status r.1 = 2%Z) ∧
  (exit_status r.1 = 2%Z ↔ ∃ complaint, argv = Rejected complaint) ∧
  (exit_status r.1 = 0%Z ↔
   (∃ help, argv = HelpRequested help) ∨
   (∃ args project_id all_models,
      argv = Parsed args ∧
      (get_project_id (project args) w1).1 = Return project_id ∧
      rpc_list_publisher_models network discovery_endpoint
        ("publishers/" +:+ publisher args) = Return all_models)).
Proof.
  intros w1 Hfailures r. subst r.
  destruct argv as [args|help|complaint].
  - destruct (Hfailures args eq_refl) as [Hdisc Hprobe].
    set (target := or_else (region args) (environ w1 !! "REGION") "us-central1")
      in *.
    destruct (get_project_id_decided (project args) w1)
      as [[project_id Hproject]|Hnone].
    + rewrite (main_after_project network dotenv args w project_id Hproject).
      fold w1 target. unfold fetch_models.
      destruct (rpc_list_publisher_models network discovery_endpoint
                  ("publishers/" +:+ publisher args)) as [all_models|e] eqn:Hlist.
      * assert (∃ l w3, fetch_models_with network 50 project_id target
                          (publisher args) w1 = (Return l, w3))
          as (l & w3 & ->).
        { destruct (decide (target = "us-central1")) as [->|Hne].
          - rewrite (fetch_models_with_master _ _ _ _ all_models) by done. eauto.
          - destruct (fetch_models_with_returns network 50 project_id target
                        (publisher args) all_models w1 ltac:(lia) Hne Hlist
                        (Hprobe all_models Hne eq_refl)) as (l & w3 & -> & _).
            eauto. }
        simpl. split_and!; [by left| |].
        -- split; [done|]. by intros [? ?].
        -- split; [|done]. intros _. right. by exists args, project_id, all_models.
      * rewrite (fetch_models_with_discovery_failure _ _ _ _ _ e) by done.
        rewrite (Hdisc e eq_refl). simpl. split_and!; [by right; left| |].
        -- split; [done|]. by intros [? ?].
        -- split; [done|]. intros [[? ?]|(args' & ? & ? & Hargs & _ & Hl)]; [done|].
           injection Hargs as <-. congruence.
    + destruct (main_without_project_spec network dotenv args w Hnone) as (-> & _).
      simpl. split_and!; [by right; left| |].
      * split; [done|]. by intros [? ?].
      * split; [done|].
        intros [[? ?]|(args' & project_id & ? & Hargs & Hproject & _)]; [done|].
        injection Hargs as <-. by destruct (Hnone project_id).
  - rewrite main_help_spec. simpl. split_and!; [by left| |].
    + split; [done|]. by intros [? ?].
    + split; [|done]. intros _. left. by exists help.
  - rewrite main_rejected_spec. simpl. split_and!; [by right; right| |].
    + split; [|done]. intros _. by exists complaint.
    + split; [done|]. by intros [[? ?]|(? & ? & ? & ? & _)].
Qed.

Lemma main_exit_status_witness :
  let argv := Parsed (mkNamespace (Some "my-project") (Some "europe-west4") "google") in
  let r := main scenario_network ∅ argv (fresh_world last_first) in
  (exit_status r.1 = 0%Z ∨ exit_status r.1 = 1%Z ∨ exit_status r.1 = 2%Z) ∧
  (exit_status r.1 = 2%Z ↔ ∃ complaint, argv = Rejected complaint) ∧
  (exit_status r.1 = 0%Z ↔
   (∃ help, argv = HelpRequested help) ∨
   (∃ args project_id all_models,
      argv = Parsed args ∧
      (get_project_id (project args) (load_dotenv ∅ (fresh_world last_first)).2).1
      = Return project_id ∧
      rpc_list_publisher_models scenario_network discovery_endpoint
        ("publishers/" +:+ publisher args) = Return all_models)).
Proof.
  apply (main_exit_status scenario_network ∅
           (Parsed (mkNamespace (Some "my-project") (Some "europe-west4") "google"))
           (fresh_world last_first)).
  intros args [= <-]. split.
  - intros e He. vm_compute in He. discriminate.
  - intros all_models _ Hlist model e Hin Hget.
    vm_compute in Hlist. injection Hlist as <-. set_unfold in Hin.
    destruct Hin as [->|[->|[->|[]]]]; vm_compute in Hget;
      [discriminate | injection Hget as <-; reflexivity..].
Defined.

(** X9, which region is probed.  A non-empty [--region] argument decides
    the region, whatever [REGION] holds; when the argument is absent or
    empty, a non-empty [REGION] decides it.  Every fetch of the run is
    addressed to the endpoint of that region, and its one listing to the
    master endpoint.  And when the project is determined, the listing
    returns [all_models] and that region is not the master region, the run
    does send the fetches: after the listing, one request and one response
    for each name of [all_models], every one of them at the endpoint of that
    region. *)
Theorem main_region_precedence network dotenv args w target :
  target ≠ "" →
  region args = Some target ∨
  ((region args = None ∨ region args = Some "") ∧
   environ (load_dotenv dotenv w).2 !! "REGION" = Some target) →
  (∃ traffic,
     net (main network dotenv (Parsed args) w).2 = net w ++ traffic ∧
     Forall (addressed_to target) traffic) ∧
  (∀ project_id all_models,
     (get_project_id (project args) (load_dotenv dotenv w).2).1
     = Return project_id →
     rpc_list_publisher_models network discovery_endpoint
       ("publishers/" +:+ publisher args) = Return all_models →
     target ≠ "us-central1" →
     ∃ probes,
       net (main network dotenv (Parsed args) w).2
       = net w ++ ListRequest discovery_endpoint ("publishers/" +:+ publisher args)
                  :: probes ∧
       requested probes ≡ₚ name <$> all_models ∧
       responded probes ≡ₚ name <$> all_models ∧
       Forall (λ ev, ∃ model_name,
                 ev = GetRequest (target +:+ "-aiplatform.googleapis.com") model_name ∨
                 ev = GetResponse (target +:+ "-aiplatform.googleapis.com") model_name)
         probes).
Proof.
  intros Htarget Hsource.
  assert (or_else (region args) (environ (load_dotenv dotenv w).2 !! "REGION")
            "us-central1" = target) as Hregion.
  { unfold or_else.
    destruct Hsource as [->|[[->| ->] ->]]; simpl; by rewrite ?bool_decide_false. }
  split.
  - destruct (get_project_id_decided (project args) (load_dotenv dotenv w).2)
      as [[project_id Hproject]|Hnone].
    + rewrite (main_after_project network dotenv args w project_id Hproject).
      rewrite Hregion.
      destruct (fetch_models_with_wire network 50 project_id target (publisher args)
                  (load_dotenv dotenv w).2 ltac:(lia))
        as (probes & Hnet & _ & Hprobes).
      unfold fetch_models.
      exists (ListRequest discovery_endpoint ("publishers/" +:+ publisher args)
              :: probes).
      split; [|by apply Forall_cons].
      by destruct (fetch_models_with _ _ _ _ _ _) as [[?|?] ?].
    + destruct (main_without_project_spec network dotenv args w Hnone)
        as (_ & -> & _).
      exists []. by rewrite app_nil_r.
  - intros project_id all_models Hproject Hlist Hne.
    rewrite (main_after_project network dotenv args w project_id Hproject).
    rewrite Hregion.
    destruct (fetch_models_with_region network 50 project_id target
                (publisher args) all_models (load_dotenv dotenv w).2
                ltac:(lia) Hne Hlist) as (_ & _ & Hnet & _).
    destruct (run_pool_names network 50 (region_client target) all_models
                (sched (load_dotenv dotenv w).2) ltac:(lia))
      as (Hreq & Hresp & _ & _ & Hwire).
    eexists. split_and!; [|exact Hreq|exact Hresp|exact Hwire].
    unfold fetch_models.
    by destruct (fetch_models_with _ _ _ _ _ _) as [[?|?] ?].
Qed.

Lemma main_region_precedence_witness :
  let w := mkWorld {[ "REGION" := "asia-east1" ]} [] [] [] set_order_b_c_a in
  let run :=
    main scenario_network ∅
      (Parsed (mkNamespace (Some "my-project") (Some "europe-west4") "google")) w in
  ∃ probes,
    net run.2
    = net w ++ ListRequest discovery_endpoint ("publishers/" +:+ "google") :: probes ∧
    requested probes ≡ₚ name <$> [model_a; model_b; model_c] ∧
    responded probes ≡ₚ name <$> [model_a; model_b; model_c] ∧
    Forall (λ ev, ∃ model_name,
              ev = GetRequest ("europe-west4" +:+ "-aiplatform.googleapis.com")
                     model_name ∨
              ev = GetResponse ("europe-west4" +:+ "-aiplatform.googleapis.com")
                     model_name)
      probes.
Proof.
  assert ("europe-west4" ≠ "") as Hset by discriminate.
  assert ("europe-west4" ≠ "us-central1") as Hne by discriminate.
  exact (proj2 (main_region_precedence scenario_network ∅
                  (mkNamespace (Some "my-project") (Some "europe-west4") "google")
                  (mkWorld {[ "REGION" := "asia-east1" ]} [] [] [] set_order_b_c_a)
                  "europe-west4" Hset (or_introl eq_refl))
           "my-project" [model_a; model_b; model_c] eq_refl eq_refl Hne).
Defined.

(** X10, the project returned is never empty.  When [get_project_id]
    returns, the project is not the empty string; it is the [--project]
    argument, or else, the argument being absent or empty, the value of
    [GOOGLE_CLOUD_PROJECT]; and nothing was logged, printed or sent. *)
Theorem get_project_id_never_empty arg_project w p w' :
  get_project_id arg_project w = (Return p, w') →
  p ≠ "" ∧ w' = w ∧
  (arg_project = Some p ∨
   ((arg_project = None ∨ arg_project = Some "") ∧
    environ w !! "GOOGLE_CLOUD_PROJECT" = Some p)).
Proof.
  rewrite get_project_id_spec. unfold truthy.
  destruct arg_project as [a|].
  - case_bool_decide as Ha.
    + subst a. destruct (environ w !! "GOOGLE_CLOUD_PROJECT") as [v|]; [|done].
      case_bool_decide; [done|]. intros [= <- <-]. naive_solver.
    + intros [= <- <-]. naive_solver.
  - destruct (environ w !! "GOOGLE_CLOUD_PROJECT") as [v|]; [|done].
    case_bool_decide; [done|]. intros [= <- <-]. naive_solver.
Qed.

Lemma get_project_id_never_empty_witness :
  "from-environment" ≠ "" ∧
  mkWorld {[ "GOOGLE_CLOUD_PROJECT" := "from-environment" ]} [] [] [] []
  = mkWorld {[ "GOOGLE_CLOUD_PROJECT" := "from-environment" ]} [] [] [] [] ∧
  (Some "" = Some "from-environment" ∨
   ((Some "" = None ∨ Some "" = Some "") ∧
    environ (mkWorld {[ "GOOGLE_CLOUD_PROJECT" := "from-environment" ]} [] [] [] [])
      !! "GOOGLE_CLOUD_PROJECT" = Some "from-environment")).
Proof.
  apply (get_project_id_never_empty (Some "")
           (mkWorld {[ "GOOGLE_CLOUD_PROJECT" := "from-environment" ]} [] [] [] [])
           "from-environment"
           (mkWorld {[ "GOOGLE_CLOUD_PROJECT" := "from-environment" ]} [] [] [] [])).
  vm_compute. reflexivity.
Defined.

(** X11, empty means absent.  With the [--project] argument absent or
    empty and [GOOGLE_CLOUD_PROJECT] unset or empty, [get_project_id] logs
    one error line and raises [SystemExit(1)]: an empty value never passes
    for a project. *)
Theorem get_project_id_empty_is_absent arg_project w :
  arg_project = None ∨ arg_project = Some "" →
  environ w !! "GOOGLE_CLOUD_PROJECT" = None ∨
  environ w !! "GOOGLE_CLOUD_PROJECT" = Some "" →
  get_project_id arg_project w =
  (Raise (SystemExit 1),
   mkWorld (environ w) (net w)
     (stderr w ++ ["ERROR: Could not determine Project ID. Set GOOGLE_CLOUD_PROJECT env var or use --project."])
     (stdout w) (sched w)).
Proof.
  intros [-> | ->] [Henv|Henv]; by rewrite get_project_id_spec, Henv.
Qed.

Lemma get_project_id_empty_is_absent_witness :
  get_project_id (Some "")
    (mkWorld {[ "GOOGLE_CLOUD_PROJECT" := "" ]} [] [] [] []) =
  (Raise (SystemExit 1),
   mkWorld {[ "GOOGLE_CLOUD_PROJECT" := "" ]} []
     ["ERROR: Could not determine Project ID. Set GOOGLE_CLOUD_PROJECT env var or use --project."]
     [] []).
Proof.
  assert (environ (mkWorld {[ "GOOGLE_CLOUD_PROJECT" := "" ]} [] [] [] [])
            !! "GOOGLE_CLOUD_PROJECT" = Some "") as Henv
    by (vm_compute; reflexivity).
  exact (get_project_id_empty_is_absent (Some "")
           (mkWorld {[ "GOOGLE_CLOUD_PROJECT" := "" ]} [] [] [] [])
           (or_intror eq_refl) (or_intror Henv)).
Defined.

(** ** What [except Exception] lets through *)

(** X12, an interrupted listing.  When the listing raises something that
    does not derive from [Exception] (an interrupt from the keyboard, say),
    [fetch_models] raises it as it is: no error line is logged, no
    [SystemExit(1)] replaces it, no probe is sent. *)
Theorem discovery_interrupt_propagates network project_id region publisher e w :
  rpc_list_publisher_models network discovery_endpoint ("publishers/" +:+ publisher)
  = Raise e →
  isinstance_Exception e = false →
  fetch_models network project_id region publisher w =
  (Raise e,
   mkWorld (environ w)
     (net w ++ [ListRequest discovery_endpoint ("publishers/" +:+ publisher)])
     (stderr w
      ++ ["INFO: Discovery: Fetching full catalog from us-central1-aiplatform.googleapis.com..."])
     (stdout w) (sched w)).
Proof.
  intros Hlist He. unfold fetch_models.
  rewrite (fetch_models_with_discovery_failure _ _ _ _ _ e) by done.
  by rewrite He, app_nil_r.
Qed.

Lemma discovery_interrupt_propagates_witness :
  fetch_models interrupted_network "my-project" "europe-west4" "google"
    (fresh_world last_first) =
  (Raise KeyboardInterrupt,
   mkWorld ∅ [ListRequest discovery_endpoint "publishers/google"]
     ["INFO: Discovery: Fetching full catalog from us-central1-aiplatform.googleapis.com..."]
     [] last_first).
Proof.
  exact (discovery_interrupt_propagates interrupted_network "my-project"
           "europe-west4" "google" KeyboardInterrupt (fresh_world last_first)
           eq_refl eq_refl).
Defined.

(** X13, a probe that raises past [except Exception].  For a target region
    other than the master region, when the fetch of some discovered model
    raises something that does not derive from [Exception], [fetch_models]
    returns no list: it raises what the fetch of a discovered model raised,
    and that is no [Exception] either.  Every probe is sent and answered all
    the same before the exception leaves [fetch_models]. *)
Theorem probe_base_exception_aborts network project_id region publisher all_models
    model e w :
  region ≠ "us-central1" →
  rpc_list_publisher_models network discovery_endpoint ("publishers/" +:+ publisher)
  = Return all_models →
  model ∈ all_models →
  get_publisher_model network (region_client region) (name model) = Raise e →
  isinstance_Exception e = false →
  let r := fetch_models network project_id region publisher w in
  (∃ e' model',
     r.1 = Raise e' ∧ isinstance_Exception e' = false ∧ model' ∈ all_models ∧
     get_publisher_model network (region_client region) (name model') = Raise e') ∧
  ∃ probes,
    net r.2 = net w ++ ListRequest discovery_endpoint ("publishers/" +:+ publisher)
                       :: probes ∧
    sent probes = length all_models ∧
    received probes = length all_models.
Proof.
  intros Hregion Hlist Hin Hget He r. subst r. unfold fetch_models. split.
  - pose proof (fetch_models_with_outcome network 50 project_id region publisher
                  all_models w ltac:(lia) Hregion Hlist) as H.
    destruct (fetch_models_with _ _ _ _ _ _).1 as [l|e'].
    + destruct H as [_ H]. destruct (H model Hin) as [b Hb].
      rewrite (check_model_availability_passes_base_exceptions _ _ _ e) in Hb; done.
    + destruct H as (model' & Hin' & Hraise). exists e', model'.
      rewrite check_model_availability_spec in Hraise.
      destruct (get_publisher_model network (region_client region) (name model'))
        as [x|e'']; [done|].
      destruct (isinstance_Exception e'') eqn:He''; [done|].
      by simplify_eq.
  - destruct (fetch_models_with_region network 50 project_id region publisher
                all_models w ltac:(lia) Hregion Hlist) as (_ & _ & Hnet & _).
    destruct (run_pool_spec network 50 (region_client region) (sched w) all_models
                ltac:(lia)) as (_ & Hr & Hfin & _ & Hsent & Hrecv & _).
    destruct (run_pool_completed network 50 (region_client region) (sched w)
                all_models ltac:(lia)) as (_ & Hrt & _).
    set (p := run_pool _ _ _ _ _) in *.
    assert (length (finished p) = length all_models) as Hlen.
    { rewrite Hfin, length_fmap. unfold submitted. by rewrite length_imap. }
    rewrite Hr in Hsent. rewrite Hrt in Hrecv. simpl in Hsent, Hrecv.
    exists (wire p). split; [done|]. lia.
Qed.

Lemma probe_base_exception_aborts_witness :
  let r := fetch_models exiting_network "my-project" "europe-west4" "google"
             (fresh_world last_first) in
  (∃ e' model',
     r.1 = Raise e' ∧ isinstance_Exception e' = false ∧
     model' ∈ [model_a; model_b; model_c] ∧
     get_publisher_model exiting_network (region_client "europe-west4") (name model')
     = Raise e') ∧
  ∃ probes,
    net r.2 = net (fresh_world last_first)
              ++ ListRequest discovery_endpoint ("publishers/" +:+ "google") :: probes ∧
    sent probes = length [model_a; model_b; model_c] ∧
    received probes = length [model_a; model_b; model_c].
Proof.
  apply (probe_base_exception_aborts exiting_network "my-project" "europe-west4"
           "google" [model_a; model_b; model_c] model_b (SystemExit 2)
           (fresh_world last_first)).
  - discriminate.
  - reflexivity.
  - set_solver.
  - reflexivity.
  - reflexivity.
Defined.

(** ** [inspect_model] *)

(** X14, [inspect_model] agrees with the probe.  When the failures of the
    two fetches are errors, [inspect_model] returns after checking both
    models in turn at europe-west4, the second whatever became of the first:
    two requests, each answered before the next, and four lines printed.
    The verdict line of a model is its SUCCESS line exactly when
    [check_model_availability] answers [True] for that model at that
    endpoint. *)
Theorem inspect_model_agrees_with_probe network w :
  (∀ model_name e,
     model_name ∈ [test_model_1; test_model_2] →
     get_publisher_model network (region_client "europe-west4") model_name = Raise e →
     isinstance_Exception e = true) →
  ∃ verdict_1 verdict_2,
    inspect_model network w =
    (Return (),
     mkWorld (environ w)
       (net w ++ [GetRequest "europe-west4-aiplatform.googleapis.com" test_model_1;
                  GetResponse "europe-west4-aiplatform.googleapis.com" test_model_1;
                  GetRequest "europe-west4-aiplatform.googleapis.com" test_model_2;
                  GetResponse "europe-west4-aiplatform.googleapis.com" test_model_2])
       (stderr w)
       (stdout w ++ ["Checking " +:+ test_model_1 +:+ " in europe-west4...";
                     verdict_1;
                     "Checking " +:+ test_model_2 +:+ " in europe-west4...";
                     verdict_2])
       (sched w)) ∧
    (verdict_1 = success_line test_model_1 ↔
     check_model_availability network (region_client "europe-west4") test_model_1
     = Return true) ∧
    (verdict_2 = success_line test_model_2 ↔
     check_model_availability network (region_client "europe-west4") test_model_2
     = Return true).
Proof.
  intros Herr.
  pose proof (Herr test_model_1) as H1. pose proof (Herr test_model_2) as H2.
  rewrite !check_model_availability_spec.
  unfold inspect_model. cbn [inspect_loop].
  unfold try_except_Exception, call_get_publisher_model. unfold_M.
  cbn [api_endpoint fst snd].
  change (mkClient ("europe-west4" +:+ "-aiplatform.googleapis.com"))
    with (region_client "europe-west4").
  fold test_model_1 test_model_2.
  destruct (get_publisher_model network (region_client "europe-west4") test_model_1)
    as [x1|e1];
    [|rewrite (H1 e1) by (done || set_solver)];
    (destruct (get_publisher_model network (region_client "europe-west4") test_model_2)
       as [x2|e2];
     [|rewrite (H2 e2) by (done || set_solver)]);
    simpl; eexists _, _; rewrite <-!(assoc (++)); simpl;
    (split; [reflexivity|]); split; split; done.
Qed.

Lemma inspect_model_agrees_with_probe_witness :
  ∃ verdict_1 verdict_2,
    inspect_model fifty_network (fresh_world []) =
    (Return (),
     mkWorld (environ (fresh_world []))
       (net (fresh_world [])
        ++ [GetRequest "europe-west4-aiplatform.googleapis.com" test_model_1;
            GetResponse "europe-west4-aiplatform.googleapis.com" test_model_1;
            GetRequest "europe-west4-aiplatform.googleapis.com" test_model_2;
            GetResponse "europe-west4-aiplatform.googleapis.com" test_model_2])
       (stderr (fresh_world []))
       (stdout (fresh_world [])
        ++ ["Checking " +:+ test_model_1 +:+ " in europe-west4...";
            verdict_1;
            "Checking " +:+ test_model_2 +:+ " in europe-west4...";
            verdict_2])
       (sched (fresh_world []))) ∧
    (verdict_1 = success_line test_model_1 ↔
     check_model_availability fifty_network (region_client "europe-west4") test_model_1
     = Return true) ∧
    (verdict_2 = success_line test_model_2 ↔
     check_model_availability fifty_network (region_client "europe-west4") test_model_2
     = Return true).
Proof.
  apply (inspect_model_agrees_with_probe fifty_network (fresh_world [])).
  intros model_name e _ Hget. vm_compute in Hget. injection Hget as <-. reflexivity.
Defined.

Example inspect_model_run :
  stdout (inspect_model fifty_network (fresh_world [])).2 =
  ["Checking publishers/google/models/gemini-1.5-pro-002 in europe-west4...";
   "FAILED: publishers/google/models/gemini-1.5-pro-002 is NOT available (or API error): 404 Publisher model not found";
   "Checking publishers/google/models/bert-base in europe-west4...";
   "FAILED: publishers/google/models/bert-base is NOT available (or API error): 404 Publisher model not found"].
Proof. vm_compute. reflexivity. Qed.

(** ** Duplicates *)

(** X15, no duplicate comes from the probing.  When the names of the
    discovery list are pairwise distinct, so are the names of the models
    [fetch_models] returns: the run prints no policy line twice. *)
Theorem fetch_models_no_duplicates network project_id region publisher all_models w l w' :
  rpc_list_publisher_models network discovery_endpoint ("publishers/" +:+ publisher)
  = Return all_models →
  NoDup (name <$> all_models) →
  fetch_models network project_id region publisher w = (Return l, w') →
  NoDup (name <$> l).
Proof.
  intros Hlist Hnodup Hrun.
  destruct (fetch_models_with_submseteq network 50 project_id region publisher w l w'
              ltac:(lia) Hrun) as (all_models' & Hlist' & Hsub).
  rewrite Hlist in Hlist'. injection Hlist' as <-.
  apply (fmap_submseteq name) in Hsub.
  apply submseteq_Permutation in Hsub as [k Hk]. rewrite Hk in Hnodup.
  by apply NoDup_app in Hnodup as [? _].
Qed.

Lemma fetch_models_no_duplicates_witness :
  NoDup (name <$> [mkPublisherModel "publishers/google/models/c" "001";
                   mkPublisherModel "publishers/google/models/b" "001";
                   mkPublisherModel "publishers/google/models/a" "001"]).
Proof.
  apply (fetch_models_no_duplicates permissive_network "my-project" "europe-west4"
           "google" [model_a; model_b; model_c] (fresh_world last_first) _
           (fetch_models permissive_network "my-project" "europe-west4" "google"
              (fresh_world last_first)).2).
  - reflexivity.
  - by apply (bool_decide_unpack _).
  - vm_compute. reflexivity.
Defined.
